(** * The path-smoothing cost function of the smac planner

    A shallow embedding of [UnconstrainedSmootherCostFunction]
    (smac_planner/smoother_cost_function.hpp).

    Numeric model: every [double] of the source is a real number and the
    arithmetic is exact.  Over the reals there is no NaN and no infinity,
    so [std::isnan] and [std::isinf] are constantly false.  Comparisons of
    doubles are the decidable comparisons of [R].

    Stateful code: [Evaluate] keeps its locals (the accumulators, the two
    computation caches, the carried curvature [ki_m1]) in one loop state,
    threaded through the [for] loop with [fold_left].  The gradient buffer
    belongs to the caller: it enters [Evaluate] and is returned with the
    slots the loop wrote.  A field the source reads before writing
    (an indeterminate value of a C++ object) is an explicit input. *)

From Stdlib Require Import Reals Psatz List ZArith Bool.
Import ListNotations.
Open Scope R_scope.

(** ** Numeric helpers *)

(** [#define EPSILON 0.0001] *)
Definition EPSILON : R := / 10000.

(** [std::isnan] and [std::isinf] over the reals. *)
Definition isnan (_ : R) : bool := false.
Definition isinf (_ : R) : bool := false.

Definition Rltb (a b : R) : bool := if Rlt_dec a b then true else false.
Definition Rleb (a b : R) : bool := if Rle_dec a b then true else false.
Definition Reqb (a b : R) : bool := if Req_EM_T a b then true else false.

(** [hypot] of <cmath>. *)
Definition hypot (x y : R) : R := sqrt (x * x + y * y).

(** The [unsigned int] of the source: arithmetic modulo 2^32. *)
Definition u32 (z : Z) : Z := (z mod 2 ^ 32)%Z.

(** ** [Eigen::Vector2d] *)

Record Vector2d := mkVector2d { v0 : R; v1 : R }.

Definition dot (a b : Vector2d) : R := v0 a * v0 b + v1 a * v1 b.
Definition squaredNorm (a : Vector2d) : R := dot a a.
Definition norm (a : Vector2d) : R := sqrt (squaredNorm a).
Definition vsub (a b : Vector2d) : Vector2d := mkVector2d (v0 a - v0 b) (v1 a - v1 b).
Definition vneg (a : Vector2d) : Vector2d := mkVector2d (- v0 a) (- v1 a).
(** [v * s] and [s * v]. *)
Definition vmuls (a : Vector2d) (s : R) : Vector2d := mkVector2d (v0 a * s) (v1 a * s).
Definition svmul (s : R) (a : Vector2d) : Vector2d := mkVector2d (s * v0 a) (s * v1 a).
(** [v / s]. *)
Definition vdivs (a : Vector2d) (s : R) : Vector2d := mkVector2d (v0 a / s) (v1 a / s).

(** ** External collaborators *)

(** Modelled from the spec: the four named thresholds of the cost field
    (FREE, UNKNOWN, INSCRIBED, MAX_NON_OBSTACLE), declared in the planner's
    constants header, which is not under src/.  The spec treats them as
    configuration constants of the cost field, so they are a parameter. *)
Record Thresholds := mkThresholds {
  FREE : R;
  UNKNOWN : R;
  INSCRIBED : R;
  MAX_NON_OBSTACLE : R
}.

(** Modelled from the spec: [MinimalCostmap] (minimal_costmap.hpp is not
    under src/): a grid of [sizeX] by [sizeY] cells, a cost lookup
    [getCost] and the world-to-grid transform [worldToMap], which fails for
    points outside the map.  [getCost] is total: what it returns for cells
    outside the grid is the model of an out-of-bounds read. *)
Record MinimalCostmap := mkMinimalCostmap {
  sizeX : Z;
  sizeY : Z;
  getCost : Z -> Z -> R;
  worldToMap : R -> R -> option (Z * Z)
}.

(** ** The computation caches *)

Record CurvatureComputations := mkCurvatureComputations {
  valid : bool;
  delta_xi : Vector2d;
  delta_xi_p : Vector2d;
  delta_xi_norm : R;
  delta_xi_p_norm : R;
  delta_phi_i : R;
  turning_rad : R;
  ki_minus_kmax : R
}.

Definition isValid (c : CurvatureComputations) : bool := valid c.

Definition set_valid (b : bool) (c : CurvatureComputations) : CurvatureComputations :=
  mkCurvatureComputations b (delta_xi c) (delta_xi_p c) (delta_xi_norm c)
    (delta_xi_p_norm c) (delta_phi_i c) (turning_rad c) (ki_minus_kmax c).

(** The constructor sets [valid] only; every other field keeps the
    indeterminate contents [junk] of the object's storage. *)
Definition CurvatureComputations_ctor (junk : CurvatureComputations) : CurvatureComputations :=
  set_valid true junk.

Record CostComputations := mkCostComputations {
  cost : R;
  gradx : R;
  grady : R
}.

(** [CostComputations{}]: all three fields start at 0. *)
Definition CostComputations_ctor : CostComputations := mkCostComputations 0 0 0.

(** ** The cost function object *)

Record UnconstrainedSmootherCostFunction := mkSmoother {
  num_params : nat;
  Wsmooth : R;
  Wcurve : R;
  Wcollision : R;
  Wcost : R;
  Wchange : R;
  max_turning_radius : R;
  costmap : MinimalCostmap
}.

(** The constructor: the weights are fixed there. *)
Definition make_UnconstrainedSmootherCostFunction (num_points : nat) (cm : MinimalCostmap)
  : UnconstrainedSmootherCostFunction :=
  {| num_params := 2 * num_points;
     Wsmooth := 200000;
     Wcost := 2 / 10;
     Wchange := 1;
     Wcurve := 2;
     Wcollision := 1;
     max_turning_radius := 10;
     costmap := cm |}.

Definition NumParameters (f : UnconstrainedSmootherCostFunction) : nat := num_params f.

Section Terms.

Variable th : Thresholds.

(** ** Term 1: smoothness *)

Definition addSmoothingResidual (weight : R) (pt pt_p pt_m : Vector2d) (r : R) : R :=
  r + weight * (
    dot pt_p pt_p
    - 4 * dot pt_p pt
    + 2 * dot pt_p pt_m
    + 4 * dot pt pt
    - 4 * dot pt pt_m
    + dot pt_m pt_m).

Definition addSmoothingJacobian (weight : R) (pt pt_p pt_m : Vector2d) (j : R * R) : R * R :=
  let '(j0, j1) := j in
  (j0 + weight * (- 4 * v0 pt_m + 8 * v0 pt - 4 * v0 pt_p),
   j1 + weight * (- 4 * v1 pt_m + 8 * v1 pt - 4 * v1 pt_p)).

(** ** Term 2: curvature limit *)

Definition addMaxCurvatureResidual (f : UnconstrainedSmootherCostFunction) (weight : R)
    (pt pt_p pt_m : Vector2d) (c : CurvatureComputations) (r : R)
  : CurvatureComputations * R :=
  let dxi := mkVector2d (v0 pt - v0 pt_m) (v1 pt - v1 pt_m) in
  let dxip := mkVector2d (v0 pt_p - v0 pt) (v1 pt_p - v1 pt) in
  let n := norm dxi in
  let np := norm dxip in
  let c1 := mkCurvatureComputations (valid c) dxi dxip n np
              (delta_phi_i c) (turning_rad c) (ki_minus_kmax c) in
  if Rltb n EPSILON || Rltb np EPSILON || isnan np || isnan n || isinf np || isinf n
  then (set_valid false c1, r)
  else
    let delta_xi_by_xi_p := n * np in
    let projection0 := dot dxi dxip / delta_xi_by_xi_p in
    let projection :=
      if Rltb (Rabs (1 - projection0)) EPSILON || Rltb (Rabs (projection0 + 1)) EPSILON
      then 1 else projection0 in
    let phi := acos projection in
    let tr := phi / n in
    let k := tr - max_turning_radius f in
    let c2 := mkCurvatureComputations (valid c) dxi dxip n np phi tr k in
    if Rleb k EPSILON then (set_valid false c2, r)
    else (c2, r + weight * k * k).

Definition normalizedOrthogonalComplement (a b : Vector2d) (a_norm b_norm : R) : Vector2d :=
  vdivs (vsub a (vdivs (vmuls b (dot a b)) (squaredNorm b))) (a_norm * b_norm).

Definition addMaxCurvatureJacobian (weight : R) (pt pt_p pt_m : Vector2d)
    (c : CurvatureComputations) (j : R * R) : R * R :=
  if negb (isValid c) then j else
  let partial_delta_phi_i_wrt_cost_delta_phi_i :=
    -1 / sqrt (1 - (cos (delta_phi_i c)) ^ 2) in
  let ones := mkVector2d 1 1 in
  let neg_pt_plus := svmul (-1) pt_p in
  let p1 := normalizedOrthogonalComplement pt neg_pt_plus (delta_xi_norm c) (delta_xi_p_norm c) in
  let p2 := normalizedOrthogonalComplement neg_pt_plus pt (delta_xi_norm c) (delta_xi_p_norm c) in
  let u := 2 * ki_minus_kmax c in
  let common_prefix := (-1 / delta_xi_norm c) * partial_delta_phi_i_wrt_cost_delta_phi_i in
  let common_suffix := delta_phi_i c / (delta_xi_norm c * delta_xi_norm c) in
  let jacobian :=
    svmul u (vsub (svmul common_prefix (vsub (vneg p1) p2)) (svmul common_suffix ones)) in
  let '(j0, j1) := j in
  (j0 + weight * v0 jacobian, j1 + weight * v1 jacobian).

(** ** Term 3: change of the turning rate *)

Definition addTurningRateChangeResidual (weight ki ki_m1 r : R) : R :=
  r + weight * (ki * ki + ki_m1 * ki_m1 - 2 * ki * ki_m1).

Definition addTurningRateChangeJacobian (weight ki ki_m1 : R) (j : R * R) : R * R :=
  let '(j0, j1) := j in
  (j0 + 2 * weight * (ki - ki_m1), j1 + 2 * weight * (ki - ki_m1)).

(** ** The cost-field gradient *)

Definition getCostmapGradient (f : UnconstrainedSmootherCostFunction) (mx my : Z)
    (params : CostComputations) : CostComputations :=
  let cm := costmap f in
  let right_one := if (mx <? sizeX cm)%Z then getCost cm (u32 (mx + 1)) my else 0 in
  let right_two := if (u32 (mx + 1) <? sizeX cm)%Z then getCost cm (u32 (mx + 2)) my else 0 in
  let left_one := if (0 <? mx)%Z then getCost cm (u32 (mx - 1)) my else 0 in
  let left_two := if (0 <? u32 (mx - 1))%Z then getCost cm (u32 (mx - 2)) my else 0 in
  let up_one := if (my <? sizeY cm)%Z then getCost cm mx (u32 (my + 1)) else 0 in
  let up_two := if (u32 (my + 1) <? sizeY cm)%Z then getCost cm mx (u32 (my + 2)) else 0 in
  let down_one := if (0 <? my)%Z then getCost cm mx (u32 (my - 1)) else 0 in
  (* [down_two] is never assigned; the last branch assigns [left_two] *)
  let down_two := 0 in
  let left_two := if (0 <? u32 (my - 1))%Z then getCost cm mx (u32 (my - 2)) else left_two in
  let gx := (8 * up_one - up_two - 8 * down_one + down_two) / 12 in
  let gy := (8 * right_one - right_two - 8 * left_one + left_two) / 12 in
  let grad_mag := hypot gx gy in
  if Rltb EPSILON grad_mag
  then mkCostComputations (cost params) (gx / grad_mag) (gy / grad_mag)
  else mkCostComputations (cost params) gx gy.

(** ** Term 4: collision *)

Definition addCollisionResidual (weight value : R) (params : CostComputations) (r : R)
  : CostComputations * R :=
  if Rltb value (INSCRIBED th) then (params, r) else
  let c := -1 * weight * (value * value - 2 * MAX_NON_OBSTACLE th * value
                          + MAX_NON_OBSTACLE th * MAX_NON_OBSTACLE th) in
  (mkCostComputations c (gradx params) (grady params), r + c).

Definition addCollisionJacobian (f : UnconstrainedSmootherCostFunction) (weight : R)
    (mx my : Z) (value : R) (params : CostComputations) (j : R * R)
  : CostComputations * (R * R) :=
  if Rltb value (INSCRIBED th) then (params, j) else
  let params' := getCostmapGradient f mx my params in
  let common_prefix := -2 * weight * (value - MAX_NON_OBSTACLE th) in
  let '(j0, j1) := j in
  (params', (j0 + common_prefix * gradx params', j1 + common_prefix * grady params')).

(** ** Term 5: cost avoidance *)

Definition addCostResidual (weight value : R) (params : CostComputations) (r : R) : R :=
  if Reqb value (FREE th) || Reqb value (UNKNOWN th) then r else
  if negb (Reqb (cost params) 0) then r + cost params
  else r + -1 * weight * (value * value - 2 * MAX_NON_OBSTACLE th * value
                          + MAX_NON_OBSTACLE th * MAX_NON_OBSTACLE th).

Definition addCostJacobian (f : UnconstrainedSmootherCostFunction) (weight : R)
    (mx my : Z) (value : R) (params : CostComputations) (j : R * R)
  : CostComputations * (R * R) :=
  if Reqb value (FREE th) || Reqb value (UNKNOWN th) then (params, j) else
  let params' := if Reqb (gradx params) 0 && Reqb (grady params) 0
                 then getCostmapGradient f mx my params else params in
  let common_prefix := -2 * weight * (value - MAX_NON_OBSTACLE th) in
  let '(j0, j1) := j in
  (params', (j0 + common_prefix * gradx params', j1 + common_prefix * grady params')).

End Terms.

(** ** [Evaluate] *)

(** [gradient[n] = v] on the caller's buffer (the loop only writes slots
    inside a buffer of [NumParameters] values). *)
Fixpoint list_set (n : nat) (v : R) (l : list R) : list R :=
  match l, n with
  | [], _ => []
  | _ :: t, O => v :: t
  | h :: t, S n' => h :: list_set n' v t
  end.

(** The locals of [Evaluate] that live across iterations of its loop. *)
Record EvalState := mkEvalState {
  cost_raw : R;
  grad_x_raw : R;
  grad_y_raw : R;
  ki_m1 : R;
  curvature_params : CurvatureComputations;
  cost_params : CostComputations;
  st_gradient : option (list R)
}.

Definition point (parameters : list R) (k : nat) : Vector2d :=
  mkVector2d (nth (2 * k) parameters 0) (nth (2 * k + 1) parameters 0).

(** One iteration of the [for] loop, at index [i]. *)
Definition loop_body (th : Thresholds) (f : UnconstrainedSmootherCostFunction)
    (parameters : list R) (s : EvalState) (i : nat) : EvalState :=
  let x_index := (2 * i)%nat in
  let y_index := (2 * i + 1)%nat in
  if (i <? 1)%nat || (NumParameters f / 2 - 1 <=? i)%nat then s else
  let xi := mkVector2d (nth x_index parameters 0) (nth y_index parameters 0) in
  let xi_p1 := mkVector2d (nth (x_index + 2) parameters 0) (nth (y_index + 2) parameters 0) in
  let xi_m1 := mkVector2d (nth (x_index - 2) parameters 0) (nth (y_index - 2) parameters 0) in
  (* compute cost *)
  let r1 := addSmoothingResidual (Wsmooth f) xi xi_p1 xi_m1 (cost_raw s) in
  let '(cp, r2) := addMaxCurvatureResidual f (Wcurve f) xi xi_p1 xi_m1 (curvature_params s) r1 in
  let r3 := addTurningRateChangeResidual (Wchange f) (turning_rad cp) (ki_m1 s) r2 in
  (* [valid_coords], [mx], [my] and [costmap_cost] *)
  let sample :=
    match worldToMap (costmap f) (v0 xi) (v1 xi) with
    | Some (mx, my) => Some (mx, my, getCost (costmap f) mx my)
    | None => None
    end in
  let '(params, r5) :=
    match sample with
    | Some (_, _, costmap_cost) =>
        let '(params1, r4) := addCollisionResidual th (Wcollision f) costmap_cost (cost_params s) r3 in
        (params1, addCostResidual th (Wcost f) costmap_cost params1 r4)
    | None => (cost_params s, r3)
    end in
  (* compute gradient *)
  match st_gradient s with
  | None =>
      mkEvalState r5 (grad_x_raw s) (grad_y_raw s) (turning_rad cp) cp params None
  | Some g =>
      let g1 := list_set y_index 0 (list_set x_index 0 g) in
      let j1 := addSmoothingJacobian (Wsmooth f) xi xi_p1 xi_m1 (grad_x_raw s, grad_y_raw s) in
      let j2 := addMaxCurvatureJacobian (Wcurve f) xi xi_p1 xi_m1 cp j1 in
      let j3 := addTurningRateChangeJacobian (Wchange f) (turning_rad cp) (ki_m1 s) j2 in
      let '(params3, j5) :=
        match sample with
        | Some (mx, my, costmap_cost) =>
            let '(params2, j4) := addCollisionJacobian th f (Wcollision f) mx my costmap_cost params j3 in
            addCostJacobian th f (Wcost f) mx my costmap_cost params2 j4
        | None => (params, j3)
        end in
      let g2 := list_set y_index (snd j5) (list_set x_index (fst j5) g1) in
      mkEvalState r5 (fst j5) (snd j5) (turning_rad cp) cp params3 (Some g2)
  end.

Definition initial_state (junk : CurvatureComputations) (gradient : option (list R)) : EvalState :=
  mkEvalState 0 0 0 0 (CurvatureComputations_ctor junk) CostComputations_ctor gradient.

(** [Evaluate(parameters, cost, gradient)]: the result flag, [cost[0]] and
    the caller's gradient buffer after the call ([None] for [NULL]).
    [junk] is the indeterminate storage of the curvature cache. *)
Definition Evaluate (th : Thresholds) (f : UnconstrainedSmootherCostFunction)
    (junk : CurvatureComputations) (parameters : list R) (gradient : option (list R))
  : bool * R * option (list R) :=
  let s := fold_left (loop_body th f parameters) (seq 0 (NumParameters f / 2))
             (initial_state junk gradient) in
  (true, cost_raw s, st_gradient s).

(** ** Auxiliary definitions for the proofs *)

(** The loop-state relation used for the cost of [Evaluate]: two states
    that agree on everything the residuals read. *)
Definition same_cost_state (s1 s2 : EvalState) : Prop :=
  cost_raw s1 = cost_raw s2 /\ ki_m1 s1 = ki_m1 s2 /\
  curvature_params s1 = curvature_params s2 /\
  cost (cost_params s1) = cost (cost_params s2).

(** The slots of the two fixed endpoints of an [N]-point path. *)
Definition endpoint_slot (N k : nat) : Prop := (k < 2 \/ 2 * N - 2 <= k)%nat.

(** The same cost function with a map that contains no point: every
    [worldToMap] fails. *)
Definition off_map (f : UnconstrainedSmootherCostFunction) : UnconstrainedSmootherCostFunction :=
  {| num_params := num_params f;
     Wsmooth := Wsmooth f;
     Wcurve := Wcurve f;
     Wcollision := Wcollision f;
     Wcost := Wcost f;
     Wchange := Wchange f;
     max_turning_radius := max_turning_radius f;
     costmap := mkMinimalCostmap (sizeX (costmap f)) (sizeY (costmap f)) (getCost (costmap f))
                  (fun _ _ => None) |}.

(** ** The spec's reading of the cost-field gradient helper *)

(** The cost-field gradient helper as the spec describes it: in each axis
    the five-point stencil [(8 f(+1) - f(+2) - 8 f(-1) + f(-2)) / 12] over
    the neighbours at distance 1 and 2 along that axis, reading only cells
    inside the grid and taking 0 for the others; the result normalised to
    unit length when its magnitude exceeds [EPSILON], the zero vector
    otherwise. *)
Definition in_bounds (cm : MinimalCostmap) (x y : Z) : bool :=
  (0 <=? x)%Z && (x <? sizeX cm)%Z && (0 <=? y)%Z && (y <? sizeY cm)%Z.

Definition sample (cm : MinimalCostmap) (x y : Z) : R :=
  if in_bounds cm x y then getCost cm x y else 0.

Definition five_point (f_m2 f_m1 f_p1 f_p2 : R) : R :=
  (8 * f_p1 - f_p2 - 8 * f_m1 + f_m2) / 12.

Definition getCostmapGradient_spec (cm : MinimalCostmap) (mx my : Z) : R * R :=
  let gx := five_point (sample cm (mx - 2) my) (sample cm (mx - 1) my)
                       (sample cm (mx + 1) my) (sample cm (mx + 2) my) in
  let gy := five_point (sample cm mx (my - 2)) (sample cm mx (my - 1))
                       (sample cm mx (my + 1)) (sample cm mx (my + 2)) in
  let mag := hypot gx gy in
  if Rltb EPSILON mag then (gx / mag, gy / mag) else (0, 0).

(** ** Concrete inputs *)

(** A 3-point path whose middle point coincides with the first one. *)
Definition degenerate_path : list R := [0; 0; 0; 0; 1; 0].

(** A 5 by 5 cost field whose only non-zero cell is (0, 2). *)
Definition stencil_map : MinimalCostmap :=
  mkMinimalCostmap 5 5 (fun x y => if (x =? 0)%Z && (y =? 2)%Z then 1 else 0) (fun _ _ => None).

(** A 4-point path along the x axis with uneven spacing. *)
Definition acc_path : list R := [0; 0; 1; 0; 3; 0; 4; 0].

(** A path that reverses: [(0,0) -> (1,0) -> (0,0)]. *)
Definition reversal_path : list R := [0; 0; 1; 0; 0; 0].

(** A 4-point path: straight at point 1, a right-angle turn after a short
    segment at point 2. *)
Definition turn_path : list R := [-1; 0; 0; 0; 1/10; 0; 1/10; 1].

(** The threshold values of the navigation2 costmap (FREE_SPACE 0,
    NO_INFORMATION 255, INSCRIBED_INFLATED_OBSTACLE 253,
    MAX_NON_OBSTACLE 252). *)
Definition nav2_thresholds : Thresholds := mkThresholds 0 255 253 252.

(** A 0 by 0 map: every point is outside it. *)
Definition empty_map : MinimalCostmap :=
  mkMinimalCostmap 0 0 (fun _ _ => 0) (fun _ _ => None).

(** Storage contents of a fresh curvature cache. *)
Definition junk_of (t : R) : CurvatureComputations :=
  mkCurvatureComputations false (mkVector2d 0 0) (mkVector2d 0 0) 0 0 0 t 0.

(** The uniform 5 x 5 field of value 1, at its centre cell. *)
Definition uniform_map : MinimalCostmap :=
  mkMinimalCostmap 5 5 (fun _ _ => 1) (fun _ _ => None).

(** A 1 x 1 grid of zeros with the value 1 just past its last column. *)
Definition past_last_column_map : MinimalCostmap :=
  mkMinimalCostmap 1 1 (fun x _ => if (x =? 1)%Z then 1 else 0) (fun _ _ => None).

(** Two 4 x 4 maps that differ only outside the grid. *)
Definition grid_map_a : MinimalCostmap :=
  mkMinimalCostmap 4 4 (fun x y => IZR (x + y)) (fun _ _ => None).

Definition grid_map_b : MinimalCostmap :=
  mkMinimalCostmap 4 4 (fun x y => if (0 <=? x)%Z && (x <? 4)%Z && (0 <=? y)%Z && (y <? 4)%Z
                                   then IZR (x + y) else 7) (fun _ _ => None).

(** * Properties *)

(** ** The gradient path leaves the cost alone *)

Lemma getCostmapGradient_cost f mx my p :
  cost (getCostmapGradient f mx my p) = cost p.
Proof.
  unfold getCostmapGradient; cbv zeta; destruct (Rltb _ _); reflexivity.
Qed.

Lemma addCollisionJacobian_cost th f w mx my v p j :
  cost (fst (addCollisionJacobian th f w mx my v p j)) = cost p.
Proof.
  unfold addCollisionJacobian; destruct (Rltb _ _); [reflexivity|].
  destruct j; simpl; apply getCostmapGradient_cost.
Qed.

Lemma addCostJacobian_cost th f w mx my v p j :
  cost (fst (addCostJacobian th f w mx my v p j)) = cost p.
Proof.
  unfold addCostJacobian; destruct (_ || _); [reflexivity|].
  destruct j; simpl; destruct (_ && _); [apply getCostmapGradient_cost|reflexivity].
Qed.

Lemma addCollisionResidual_congr th w v p1 p2 r :
  cost p1 = cost p2 ->
  snd (addCollisionResidual th w v p1 r) = snd (addCollisionResidual th w v p2 r) /\
  cost (fst (addCollisionResidual th w v p1 r)) = cost (fst (addCollisionResidual th w v p2 r)).
Proof.
  intros H; unfold addCollisionResidual; destruct (Rltb _ _); simpl; auto.
Qed.

Lemma addCostResidual_congr th w v p1 p2 r :
  cost p1 = cost p2 ->
  addCostResidual th w v p1 r = addCostResidual th w v p2 r.
Proof.
  intros H; unfold addCostResidual; rewrite H; reflexivity.
Qed.

Lemma loop_body_same_cost th f ps s1 s2 i :
  same_cost_state s1 s2 ->
  same_cost_state (loop_body th f ps s1 i) (loop_body th f ps s2 i).
Proof.
  destruct s1 as [c1 gx1 gy1 k1 cp1 p1 g1], s2 as [c2 gx2 gy2 k2 cp2 p2 g2].
  unfold same_cost_state; simpl; intros (<- & <- & <- & Hc).
  unfold loop_body; simpl.
  destruct (_ || _); [simpl; auto|].
  destruct (addMaxCurvatureResidual _ _ _ _ _ _ _) as [cp r2].
  destruct (worldToMap _ _ _) as [[mx my]|].
  - destruct (addCollisionResidual_congr th (Wcollision f)
                (getCost (costmap f) mx my) p1 p2
                (addTurningRateChangeResidual (Wchange f) (turning_rad cp) k1 r2) Hc) as [Hr Hq].
    destruct (addCollisionResidual th _ _ p1 _) as [q1 r41].
    destruct (addCollisionResidual th _ _ p2 _) as [q2 r42].
    simpl in Hr, Hq; subst r42.
    rewrite (addCostResidual_congr th (Wcost f) _ q1 q2 r41 Hq).
    destruct g1, g2; simpl;
      repeat match goal with
      | |- context [addCollisionJacobian ?a ?b ?c ?d ?e ?v ?q ?j] =>
          let E := fresh in
          pose proof (addCollisionJacobian_cost a b c d e v q j) as E;
          destruct (addCollisionJacobian a b c d e v q j) as [? ?]; simpl in E
      | |- context [addCostJacobian ?a ?b ?c ?d ?e ?v ?q ?j] =>
          let E := fresh in
          pose proof (addCostJacobian_cost a b c d e v q j) as E;
          destruct (addCostJacobian a b c d e v q j) as [? ?]; simpl in E
      end; simpl; repeat split; congruence.
  - destruct g1, g2; simpl; repeat split; assumption.
Qed.

Lemma fold_same_cost th f ps is s1 s2 :
  same_cost_state s1 s2 ->
  same_cost_state (fold_left (loop_body th f ps) is s1) (fold_left (loop_body th f ps) is s2).
Proof.
  revert s1 s2; induction is as [|i is IH]; simpl; intros s1 s2 H; auto.
  apply IH, loop_body_same_cost, H.
Qed.

(** C10: the cost of [Evaluate] is the same whether or not a gradient
    buffer is passed; the gradient-only computations never change it. *)
Theorem Evaluate_cost_independent_of_gradient th f junk parameters g :
  snd (fst (Evaluate th f junk parameters (Some g))) =
  snd (fst (Evaluate th f junk parameters None)).
Proof.
  unfold Evaluate; simpl.
  apply fold_same_cost; unfold same_cost_state; simpl; auto.
Qed.

(** ** The endpoint slots of the gradient buffer *)

Lemma list_set_length n v l : length (list_set n v l) = length l.
Proof.
  revert n; induction l as [|h t IH]; intros [|n]; simpl; auto.
Qed.

Lemma nth_list_set_other n v l k d :
  n <> k -> nth k (list_set n v l) d = nth k l d.
Proof.
  revert n k; induction l as [|h t IH]; intros [|n] [|k] Hnk; simpl;
    try reflexivity; try congruence; apply IH; lia.
Qed.

Lemma loop_body_endpoints th f ps s i g :
  st_gradient s = Some g ->
  exists g', st_gradient (loop_body th f ps s i) = Some g' /\
    length g' = length g /\
    forall k, endpoint_slot (NumParameters f / 2) k -> nth k g' 0 = nth k g 0.
Proof.
  intros Hg; unfold loop_body.
  destruct ((i <? 1)%nat || (NumParameters f / 2 - 1 <=? i)%nat) eqn:Hi.
  { exists g; split; [exact Hg|]; auto. }
  apply orb_false_iff in Hi as [Hi1 Hi2].
  apply Nat.ltb_ge in Hi1; apply Nat.leb_gt in Hi2.
  rewrite Hg.
  repeat match goal with
  | |- context [match ?X with pair _ _ => _ end] => destruct X
  | |- context [match ?X with Some _ => _ | None => _ end] =>
      lazymatch X with Some _ => fail | None => fail | _ => destruct X as [[[? ?] ?]|] end
  end;
  eexists; split; [reflexivity|]; split.
  - rewrite !list_set_length; reflexivity.
  - intros k Hk; unfold endpoint_slot in Hk.
    set (N := (NumParameters f / 2)%nat) in *.
    rewrite !nth_list_set_other by lia; reflexivity.
Qed.

Lemma fold_endpoints th f ps is s g :
  st_gradient s = Some g ->
  exists g', st_gradient (fold_left (loop_body th f ps) is s) = Some g' /\
    length g' = length g /\
    forall k, endpoint_slot (NumParameters f / 2) k -> nth k g' 0 = nth k g 0.
Proof.
  revert s g; induction is as [|i is IH]; simpl; intros s g Hg.
  - exists g; auto.
  - destruct (loop_body_endpoints th f ps s i g Hg) as (g1 & Hg1 & Hl1 & Hk1).
    destruct (IH _ _ Hg1) as (g2 & Hg2 & Hl2 & Hk2).
    exists g2; split; [exact Hg2|]; split; [congruence|].
    intros k Hk; rewrite Hk2 by exact Hk; apply Hk1, Hk.
Qed.

Lemma Evaluate_endpoints th f junk ps g :
  exists g', snd (Evaluate th f junk ps (Some g)) = Some g' /\
    length g' = length g /\
    forall k, endpoint_slot (NumParameters f / 2) k -> nth k g' 0 = nth k g 0.
Proof.
  unfold Evaluate; simpl; apply fold_endpoints; reflexivity.
Qed.

(** C2 (code bug): [Evaluate] never writes the endpoint slots 0, 1, 2N-2
    and 2N-1 of the gradient buffer.  The loop skips [i = 0] and
    [i = N - 1], and only the interior iterations zero and write their own
    slots; so after the call the endpoint slots hold whatever the caller's
    buffer held there before, for every path and every buffer.  On a 3-point
    path with a caller's buffer holding 1 in slot 0, slot 0 still holds 1
    after the call, not 0. *)
Theorem Evaluate_gradient_endpoints_not_written :
  (forall th f junk parameters g,
     exists g', snd (Evaluate th f junk parameters (Some g)) = Some g' /\
       length g' = length g /\
       nth 0 g' 0 = nth 0 g 0 /\ nth 1 g' 0 = nth 1 g 0 /\
       nth (2 * (NumParameters f / 2) - 2) g' 0 = nth (2 * (NumParameters f / 2) - 2) g 0 /\
       nth (2 * (NumParameters f / 2) - 1) g' 0 = nth (2 * (NumParameters f / 2) - 1) g 0) /\
  exists g', snd (Evaluate nav2_thresholds (make_UnconstrainedSmootherCostFunction 3 empty_map)
                   (junk_of 0) [0; 0; 1; 0; 2; 0] (Some [1; 0; 0; 0; 0; 0])) = Some g' /\
    nth 0 g' 0 = 1 /\ nth 0 g' 0 <> 0.
Proof.
  split.
  - intros th f junk parameters g.
    destruct (Evaluate_endpoints th f junk parameters g) as (g' & Hg & Hl & Hk).
    exists g'; unfold endpoint_slot in Hk.
    repeat split; auto; apply Hk; lia.
  - destruct (Evaluate_endpoints nav2_thresholds (make_UnconstrainedSmootherCostFunction 3 empty_map)
                (junk_of 0) [0; 0; 1; 0; 2; 0] [1; 0; 0; 0; 0; 0]) as (g' & Hg & _ & Hk).
    exists g'; rewrite (Hk 0%nat) by (unfold endpoint_slot; lia).
    simpl; repeat split; auto; lra.
Qed.

(** ** Evaluating the comparisons of doubles *)

Lemma Rltb_true a b : a < b -> Rltb a b = true.
Proof. intros H; unfold Rltb; destruct (Rlt_dec a b); [reflexivity|contradiction]. Qed.

Lemma Rltb_false a b : b <= a -> Rltb a b = false.
Proof. intros H; unfold Rltb; destruct (Rlt_dec a b); [lra|reflexivity]. Qed.

Lemma Rleb_true a b : a <= b -> Rleb a b = true.
Proof. intros H; unfold Rleb; destruct (Rle_dec a b); [reflexivity|contradiction]. Qed.

Lemma Rleb_false a b : b < a -> Rleb a b = false.
Proof. intros H; unfold Rleb; destruct (Rle_dec a b); [lra|reflexivity]. Qed.

Lemma Reqb_true a b : a = b -> Reqb a b = true.
Proof. intros H; unfold Reqb; destruct (Req_EM_T a b); [reflexivity|contradiction]. Qed.

Lemma Reqb_false a b : a <> b -> Reqb a b = false.
Proof. intros H; unfold Reqb; destruct (Req_EM_T a b); [contradiction|reflexivity]. Qed.

Lemma norm_eq v a : 0 <= a -> v0 v * v0 v + v1 v * v1 v = a * a -> norm v = a.
Proof.
  intros Ha H; unfold norm, squaredNorm, dot; rewrite H; apply sqrt_square, Ha.
Qed.

Lemma EPSILON_pos : 0 < EPSILON.
Proof. unfold EPSILON; lra. Qed.

(** ** The curvature-limit term *)

(** C8: at a point whose two segments are not degenerate, the
    curvature-limit term adds nothing when the turning-radius estimate is at
    most the maximum plus [EPSILON], and adds [Wcurve * (estimate - max)^2]
    otherwise, which is positive and grows with the excess. *)
Theorem max_curvature_penalty_one_sided n cm pt pt_p pt_m c r
    (Hn : EPSILON <= norm (vsub pt pt_m)) (Hnp : EPSILON <= norm (vsub pt_p pt)) :
  let f := make_UnconstrainedSmootherCostFunction n cm in
  let '(c', r') := addMaxCurvatureResidual f (Wcurve f) pt pt_p pt_m c r in
  (turning_rad c' <= max_turning_radius f + EPSILON -> r' = r) /\
  (max_turning_radius f + EPSILON < turning_rad c' ->
     r' = r + Wcurve f * (turning_rad c' - max_turning_radius f) ^ 2 /\ r < r' /\
     forall pt2 pt_p2 pt_m2 c2 r2,
       EPSILON <= norm (vsub pt2 pt_m2) -> EPSILON <= norm (vsub pt_p2 pt2) ->
       let '(c2', r2') := addMaxCurvatureResidual f (Wcurve f) pt2 pt_p2 pt_m2 c2 r2 in
       turning_rad c' - max_turning_radius f < turning_rad c2' - max_turning_radius f ->
       r' - r < r2' - r2).
Proof.
  assert (Hcase : forall f pt pt_p pt_m c r,
    max_turning_radius f = 10 -> Wcurve f = 2 ->
    EPSILON <= norm (vsub pt pt_m) -> EPSILON <= norm (vsub pt_p pt) ->
    let '(c', r') := addMaxCurvatureResidual f (Wcurve f) pt pt_p pt_m c r in
    (turning_rad c' - 10 <= EPSILON /\ r' = r) \/
    (EPSILON < turning_rad c' - 10 /\ r' = r + 2 * (turning_rad c' - 10) * (turning_rad c' - 10))).
  { intros f0 q q_p q_m d s Hmax Hw H1 H2.
    unfold addMaxCurvatureResidual; cbv zeta.
    unfold vsub in H1, H2; simpl in H1, H2.
    rewrite (Rltb_false _ _ H1), (Rltb_false _ _ H2); simpl.
    rewrite Hmax, Hw.
    match goal with |- context [Rleb ?k EPSILON] =>
      destruct (Rle_dec k EPSILON) as [Hk|Hk];
      [rewrite (Rleb_true _ _ Hk) | rewrite (Rleb_false _ _ (Rnot_le_lt _ _ Hk))]
    end; simpl; [left; split; [exact Hk|reflexivity] | right; split; [lra|ring]]. }
  intros f.
  pose proof (Hcase f pt pt_p pt_m c r eq_refl eq_refl Hn Hnp) as Hc.
  destruct (addMaxCurvatureResidual f (Wcurve f) pt pt_p pt_m c r) as [c' r'].
  assert (Em : max_turning_radius f = 10) by reflexivity.
  assert (Ew : Wcurve f = 2) by reflexivity.
  split.
  - intros Hle; destruct Hc as [[_ Hr]|[Hk _]]; [exact Hr|lra].
  - intros Hgt; destruct Hc as [[Hk _]|[Hk Hr]]; [lra|].
    pose proof EPSILON_pos.
    split; [rewrite Hr, Em, Ew; ring|]; split; [rewrite Hr; nra|].
    intros pt2 pt_p2 pt_m2 c2 r2 Hn2 Hnp2.
    pose proof (Hcase f pt2 pt_p2 pt_m2 c2 r2 eq_refl eq_refl Hn2 Hnp2) as Hc2.
    destruct (addMaxCurvatureResidual f (Wcurve f) pt2 pt_p2 pt_m2 c2 r2) as [c2' r2'].
    intros Hlt; rewrite Em in Hlt; destruct Hc2 as [[Hk2 _]|[Hk2 Hr2]]; [lra|].
    rewrite Hr, Hr2; nra.
Qed.

(** A straight 3-point path meets the hypotheses of C8. *)
Lemma max_curvature_penalty_one_sided_witness :
  EPSILON <= norm (vsub (mkVector2d 1 0) (mkVector2d 0 0)) /\
  EPSILON <= norm (vsub (mkVector2d 2 0) (mkVector2d 1 0)) /\
  (let f := make_UnconstrainedSmootherCostFunction 3 empty_map in
   let '(c', r') := addMaxCurvatureResidual f (Wcurve f) (mkVector2d 1 0) (mkVector2d 2 0)
                      (mkVector2d 0 0) (junk_of 0) 0 in
   (turning_rad c' <= max_turning_radius f + EPSILON -> r' = 0) /\
   (max_turning_radius f + EPSILON < turning_rad c' ->
      r' = 0 + Wcurve f * (turning_rad c' - max_turning_radius f) ^ 2 /\ 0 < r' /\
      forall pt2 pt_p2 pt_m2 c2 r2,
        EPSILON <= norm (vsub pt2 pt_m2) -> EPSILON <= norm (vsub pt_p2 pt2) ->
        let '(c2', r2') := addMaxCurvatureResidual f (Wcurve f) pt2 pt_p2 pt_m2 c2 r2 in
        turning_rad c' - max_turning_radius f < turning_rad c2' - max_turning_radius f ->
        r' - 0 < r2' - r2)).
Proof.
  assert (H1 : EPSILON <= norm (vsub (mkVector2d 1 0) (mkVector2d 0 0))).
  { rewrite (norm_eq _ 1) by (simpl; lra); unfold EPSILON; lra. }
  assert (H2 : EPSILON <= norm (vsub (mkVector2d 2 0) (mkVector2d 1 0))).
  { rewrite (norm_eq _ 1) by (simpl; lra); unfold EPSILON; lra. }
  split; [exact H1|]; split; [exact H2|].
  exact (max_curvature_penalty_one_sided 3 empty_map (mkVector2d 1 0) (mkVector2d 2 0)
           (mkVector2d 0 0) (junk_of 0) 0 H1 H2).
Defined.

(** Destructs the pattern-matching [let]s and the option matches of a
    goal, one at a time. *)
Ltac destruct_lets :=
  repeat match goal with
  | |- context [match ?X with pair _ _ => _ end] => destruct X
  | |- context [match ?X with Some _ => _ | None => _ end] =>
      lazymatch X with
      | Some _ => fail | None => fail
      | _ => destruct X as [[[? ?] ?]|]
      end
  end.

Lemma PI_gt_3 : 3 < PI.
Proof. pose proof PI2_3_2; lra. Qed.

(** The cache [addMaxCurvatureResidual] returns does not depend on the
    running cost it adds to. *)
Lemma addMaxCurvatureResidual_fst f w pt pt_p pt_m c r1 r2 :
  fst (addMaxCurvatureResidual f w pt pt_p pt_m c r1) =
  fst (addMaxCurvatureResidual f w pt pt_p pt_m c r2).
Proof.
  unfold addMaxCurvatureResidual; cbv zeta.
  destruct (_ || _); [reflexivity|].
  destruct (Rleb _ _); reflexivity.
Qed.

(** An interior iteration of the loop replaces the curvature cache by the
    one [addMaxCurvatureResidual] returns, starting from the previous one. *)
Lemma loop_body_curvature th f ps s i :
  (1 <= i)%nat -> (i < NumParameters f / 2 - 1)%nat ->
  curvature_params (loop_body th f ps s i) =
  fst (addMaxCurvatureResidual f (Wcurve f) (point ps i) (point ps (i + 1)) (point ps (i - 1))
         (curvature_params s) 0).
Proof.
  intros H1 H2; unfold loop_body.
  replace ((i <? 1)%nat || (NumParameters f / 2 - 1 <=? i)%nat) with false
    by (symmetry; apply orb_false_iff; split; [apply Nat.ltb_ge|apply Nat.leb_gt]; lia).
  unfold point.
  replace (2 * (i + 1) + 1)%nat with (2 * i + 1 + 2)%nat by lia.
  replace (2 * (i + 1))%nat with (2 * i + 2)%nat by lia.
  replace (2 * (i - 1) + 1)%nat with (2 * i + 1 - 2)%nat by lia.
  replace (2 * (i - 1))%nat with (2 * i - 2)%nat by lia.
  set (r1 := addSmoothingResidual _ _ _ _ (cost_raw s)).
  rewrite (addMaxCurvatureResidual_fst _ _ _ _ _ _ 0 r1).
  destruct (addMaxCurvatureResidual _ _ _ _ _ _ _) as [cp r2]; simpl fst.
  destruct_lets; destruct (st_gradient s); destruct_lets; reflexivity.
Qed.

(** [addMaxCurvatureResidual] at a point whose segment norms and
    normalised dot product are known. *)
Lemma addMaxCurvatureResidual_eval f w pt pt_p pt_m c r n np p0 :
  norm (vsub pt pt_m) = n -> norm (vsub pt_p pt) = np ->
  EPSILON <= n -> EPSILON <= np ->
  dot (vsub pt pt_m) (vsub pt_p pt) / (n * np) = p0 ->
  addMaxCurvatureResidual f w pt pt_p pt_m c r =
  let p := if Rltb (Rabs (1 - p0)) EPSILON || Rltb (Rabs (p0 + 1)) EPSILON then 1 else p0 in
  let k := acos p / n - max_turning_radius f in
  (mkCurvatureComputations (negb (Rleb k EPSILON) && valid c) (vsub pt pt_m) (vsub pt_p pt)
     n np (acos p) (acos p / n) k,
   if Rleb k EPSILON then r else r + w * k * k).
Proof.
  intros Hn Hnp Hen Henp Hp.
  unfold addMaxCurvatureResidual; cbv zeta.
  change (mkVector2d (v0 pt - v0 pt_m) (v1 pt - v1 pt_m)) with (vsub pt pt_m).
  change (mkVector2d (v0 pt_p - v0 pt) (v1 pt_p - v1 pt)) with (vsub pt_p pt).
  rewrite Hn, Hnp, (Rltb_false _ _ Hen), (Rltb_false _ _ Henp); simpl orb.
  rewrite Hp.
  destruct (Rleb _ EPSILON); reflexivity.
Qed.

(** C7 (code bug): on the reversing path [(0,0) -> (1,0) -> (0,0)] the
    normalised dot product at the middle point is exactly -1, yet the code
    sets it to +1 before [acos]: the turning angle comes out 0, not
    [acos (-1) = PI]. *)
Theorem reversal_projection_clamped_to_plus_one :
  let f := make_UnconstrainedSmootherCostFunction 3 empty_map in
  let pt := point reversal_path 1 in
  let pt_p := point reversal_path 2 in
  let pt_m := point reversal_path 0 in
  let c := fst (addMaxCurvatureResidual f (Wcurve f) pt pt_p pt_m (junk_of 0) 0) in
  dot (vsub pt pt_m) (vsub pt_p pt) / (norm (vsub pt pt_m) * norm (vsub pt_p pt)) = -1 /\
  delta_phi_i c = 0 /\ acos (-1) = PI /\ delta_phi_i c <> acos (-1).
Proof.
  intros f pt pt_p pt_m c.
  assert (Hn : norm (vsub pt pt_m) = 1) by (apply norm_eq; cbn; lra).
  assert (Hnp : norm (vsub pt_p pt) = 1) by (apply norm_eq; cbn; lra).
  assert (Hp : dot (vsub pt pt_m) (vsub pt_p pt) / (1 * 1) = -1)
    by (unfold dot; cbn; field).
  assert (Hacos : acos (-1) = PI)
    by (replace (-1) with (Ropp 1) by ring; rewrite acos_opp, acos_1; ring).
  assert (He : EPSILON <= 1) by (unfold EPSILON; lra).
  unfold c; rewrite (addMaxCurvatureResidual_eval _ _ _ _ _ _ _ 1 1 (-1) Hn Hnp He He Hp).
  cbv zeta.
  rewrite (Rltb_false (Rabs (1 - -1)) EPSILON)
    by (rewrite Rabs_pos_eq by lra; unfold EPSILON; lra).
  rewrite (Rltb_true (Rabs (-1 + 1)) EPSILON)
    by (replace (-1 + 1) with 0 by ring; rewrite Rabs_R0; apply EPSILON_pos).
  simpl; rewrite acos_1, Hn, Hnp, Hacos.
  pose proof PI_RGT_0.
  split; [exact Hp|]; split; [reflexivity|]; split; [reflexivity|lra].
Qed.

(** C6 (code bug): the curvature cache lives across iterations and its
    [valid] flag is never set back to true.  On [turn_path] the straight
    point 1 clears the flag; at point 2 the turn is sharp, so the residual
    adds a positive curvature-limit cost while the Jacobian, seeing the
    stale flag, adds no curvature-limit gradient. *)
Theorem stale_valid_flag_skips_curvature_gradient g :
  let th := nav2_thresholds in
  let f := make_UnconstrainedSmootherCostFunction 4 empty_map in
  let s1 := fold_left (loop_body th f turn_path) [0%nat; 1%nat]
              (initial_state (junk_of 0) (Some g)) in
  let pt := point turn_path 2 in
  let pt_p := point turn_path 3 in
  let pt_m := point turn_path 1 in
  let '(c2, r2) := addMaxCurvatureResidual f (Wcurve f) pt pt_p pt_m (curvature_params s1) 0 in
  valid (curvature_params s1) = false /\
  norm (vsub pt pt_m) = 1/10 /\ norm (vsub pt_p pt) = 1 /\
  max_turning_radius f + EPSILON < turning_rad c2 /\ 0 < r2 /\
  forall j, addMaxCurvatureJacobian (Wcurve f) pt pt_p pt_m c2 j = j.
Proof.
  intros th f s1 pt pt_p pt_m.
  assert (He1 : EPSILON <= 1) by (unfold EPSILON; lra).
  assert (He10 : EPSILON <= 1/10) by (unfold EPSILON; lra).
  (* point 1: straight, the flag is cleared *)
  assert (Hs1 : curvature_params s1 =
            fst (addMaxCurvatureResidual f (Wcurve f) (point turn_path 1) (point turn_path 2)
                   (point turn_path 0) (CurvatureComputations_ctor (junk_of 0)) 0)).
  { unfold s1; simpl fold_left.
    rewrite (loop_body_curvature th f turn_path _ 1) by (simpl; lia).
    reflexivity. }
  assert (Hn1 : norm (vsub (point turn_path 1) (point turn_path 0)) = 1)
    by (apply norm_eq; cbn; lra).
  assert (Hnp1 : norm (vsub (point turn_path 2) (point turn_path 1)) = 1/10)
    by (apply norm_eq; cbn; lra).
  assert (Hp1 : dot (vsub (point turn_path 1) (point turn_path 0))
                    (vsub (point turn_path 2) (point turn_path 1)) / (1 * (1/10)) = 1)
    by (unfold dot; cbn; field).
  rewrite (addMaxCurvatureResidual_eval _ _ _ _ _ _ _ _ _ _ Hn1 Hnp1 He1 He10 Hp1) in Hs1.
  cbv zeta in Hs1.
  rewrite (Rltb_true (Rabs (1 - 1)) EPSILON) in Hs1
    by (replace (1 - 1) with 0 by ring; rewrite Rabs_R0; apply EPSILON_pos).
  simpl orb in Hs1; cbv iota in Hs1; rewrite acos_1 in Hs1.
  rewrite (Rleb_true (0 / 1 - max_turning_radius f) EPSILON) in Hs1
    by (simpl; pose proof EPSILON_pos; unfold Rdiv; lra).
  simpl in Hs1.
  (* point 2: a right angle after a segment of length 1/10 *)
  assert (Hn2 : norm (vsub pt pt_m) = 1/10) by (apply norm_eq; cbn; lra).
  assert (Hnp2 : norm (vsub pt_p pt) = 1) by (apply norm_eq; cbn; lra).
  assert (Hp2 : dot (vsub pt pt_m) (vsub pt_p pt) / (1/10 * 1) = 0)
    by (unfold dot; cbn; field).
  rewrite (addMaxCurvatureResidual_eval _ _ _ _ _ _ _ _ _ _ Hn2 Hnp2 He10 He1 Hp2).
  cbv zeta.
  rewrite (Rltb_false (Rabs (1 - 0)) EPSILON)
    by (rewrite Rabs_pos_eq by lra; unfold EPSILON; lra).
  rewrite (Rltb_false (Rabs (0 + 1)) EPSILON)
    by (rewrite Rabs_pos_eq by lra; unfold EPSILON; lra).
  simpl orb; cbv iota; rewrite acos_0.
  pose proof PI_gt_3 as Hpi.
  assert (Hk : EPSILON < PI / 2 / (1/10) - max_turning_radius f)
    by (simpl; unfold EPSILON; field_simplify; lra).
  rewrite (Rleb_false _ _ Hk).
  rewrite Hs1; simpl.
  repeat split; auto.
  - lra.
  - pose proof EPSILON_pos; nra.
Qed.

(** An iteration outside the interior leaves the loop state as it is. *)
Lemma loop_body_skip th f ps s i :
  (i < 1 \/ NumParameters f / 2 - 1 <= i)%nat -> loop_body th f ps s i = s.
Proof.
  intros H; unfold loop_body.
  replace ((i <? 1)%nat || (NumParameters f / 2 - 1 <=? i)%nat) with true; [reflexivity|].
  symmetry; apply orb_true_iff; destruct H; [left; apply Nat.ltb_lt|right; apply Nat.leb_le]; lia.
Qed.

(** An interior iteration at a point outside the map, with a gradient
    buffer: the three geometric Jacobians are added to the running
    [grad_x_raw] and [grad_y_raw], and those are written to the slots of
    the point. *)
Lemma loop_body_offmap th f ps s i g :
  (1 <= i)%nat -> (i < NumParameters f / 2 - 1)%nat ->
  worldToMap (costmap f) (nth (2 * i) ps 0) (nth (2 * i + 1) ps 0) = None ->
  st_gradient s = Some g ->
  let xi := point ps i in
  let xi_p1 := point ps (i + 1) in
  let xi_m1 := point ps (i - 1) in
  let cp := fst (addMaxCurvatureResidual f (Wcurve f) xi xi_p1 xi_m1 (curvature_params s) 0) in
  let j3 := addTurningRateChangeJacobian (Wchange f) (turning_rad cp) (ki_m1 s)
              (addMaxCurvatureJacobian (Wcurve f) xi xi_p1 xi_m1 cp
                 (addSmoothingJacobian (Wsmooth f) xi xi_p1 xi_m1 (grad_x_raw s, grad_y_raw s))) in
  grad_x_raw (loop_body th f ps s i) = fst j3 /\
  grad_y_raw (loop_body th f ps s i) = snd j3 /\
  ki_m1 (loop_body th f ps s i) = turning_rad cp /\
  curvature_params (loop_body th f ps s i) = cp /\
  st_gradient (loop_body th f ps s i) =
    Some (list_set (2 * i + 1) (snd j3) (list_set (2 * i) (fst j3)
            (list_set (2 * i + 1) 0 (list_set (2 * i) 0 g)))).
Proof.
  intros H1 H2 Hmap Hg xi xi_p1 xi_m1 cp j3.
  unfold loop_body.
  replace ((i <? 1)%nat || (NumParameters f / 2 - 1 <=? i)%nat) with false
    by (symmetry; apply orb_false_iff; split; [apply Nat.ltb_ge|apply Nat.leb_gt]; lia).
  unfold j3, cp, xi, xi_p1, xi_m1, point.
  replace (2 * (i + 1) + 1)%nat with (2 * i + 1 + 2)%nat by lia.
  replace (2 * (i + 1))%nat with (2 * i + 2)%nat by lia.
  replace (2 * (i - 1) + 1)%nat with (2 * i + 1 - 2)%nat by lia.
  replace (2 * (i - 1))%nat with (2 * i - 2)%nat by lia.
  set (r1 := addSmoothingResidual _ _ _ _ (cost_raw s)).
  rewrite (addMaxCurvatureResidual_fst _ _ _ _ _ _ 0 r1).
  destruct (addMaxCurvatureResidual _ _ _ _ _ _ r1) as [c r2]; simpl fst.
  cbn [v0 v1]; rewrite Hmap, Hg.
  destruct (addTurningRateChangeJacobian _ _ _ _); simpl; auto.
Qed.

Lemma addMaxCurvatureJacobian_invalid w pt pt_p pt_m c j :
  valid c = false -> addMaxCurvatureJacobian w pt pt_p pt_m c j = j.
Proof. intros H; unfold addMaxCurvatureJacobian, isValid; rewrite H; reflexivity. Qed.

(** The curvature cache at a straight interior point of [acc_path]: the
    turning angle is 0 and the flag is cleared. *)
Lemma acc_path_straight f c k (Hk : (k = 1 \/ k = 2)%nat) :
  max_turning_radius f = 10 ->
  valid (fst (addMaxCurvatureResidual f (Wcurve f) (point acc_path k) (point acc_path (k + 1))
               (point acc_path (k - 1)) c 0)) = false /\
  turning_rad (fst (addMaxCurvatureResidual f (Wcurve f) (point acc_path k) (point acc_path (k + 1))
               (point acc_path (k - 1)) c 0)) = 0.
Proof.
  intros Hmax.
  assert (Hrest : forall n np, 0 < n -> 0 < np -> EPSILON <= n -> EPSILON <= np ->
    norm (vsub (point acc_path k) (point acc_path (k - 1))) = n ->
    norm (vsub (point acc_path (k + 1)) (point acc_path k)) = np ->
    dot (vsub (point acc_path k) (point acc_path (k - 1)))
        (vsub (point acc_path (k + 1)) (point acc_path k)) / (n * np) = 1 ->
    valid (fst (addMaxCurvatureResidual f (Wcurve f) (point acc_path k) (point acc_path (k + 1))
               (point acc_path (k - 1)) c 0)) = false /\
    turning_rad (fst (addMaxCurvatureResidual f (Wcurve f) (point acc_path k) (point acc_path (k + 1))
               (point acc_path (k - 1)) c 0)) = 0).
  { intros n np Hn0 Hnp0 Hen Henp Hn Hnp Hp.
    rewrite (addMaxCurvatureResidual_eval _ _ _ _ _ _ _ _ _ _ Hn Hnp Hen Henp Hp).
    cbv zeta.
    rewrite (Rltb_true (Rabs (1 - 1)) EPSILON)
      by (replace (1 - 1) with 0 by ring; rewrite Rabs_R0; apply EPSILON_pos).
    simpl orb; cbv iota; rewrite acos_1, Hmax.
    replace (0 / n) with 0 by (field; lra).
    rewrite (Rleb_true (0 - 10) EPSILON) by (pose proof EPSILON_pos; lra).
    simpl; split; reflexivity. }
  assert (He1 : EPSILON <= 1) by (unfold EPSILON; lra).
  assert (He2 : EPSILON <= 2) by (unfold EPSILON; lra).
  destruct Hk as [-> | ->].
  - apply (Hrest 1 2); try lra; [apply norm_eq; cbn; lra | apply norm_eq; cbn; lra |].
    unfold dot; cbn; field.
  - apply (Hrest 2 1); try lra; [apply norm_eq; cbn; lra | apply norm_eq; cbn; lra |].
    unfold dot; cbn; field.
Qed.


(** C1 (code bug): [grad_x_raw] and [grad_y_raw] are declared before the
    loop and never reset, so the value written to the slots of a point
    carries the contributions of every earlier point.  On [acc_path]
    (outside the map, all points straight) point 1 writes -800000 to slot 2;
    point 2's own five contributions add up to (800000, 0) (smoothing
    800000, curvature limit inactive, curvature change 0, no cost-field
    sample), yet slot 4 receives -800000 + 800000 = 0. *)
Theorem gradient_slot_carries_previous_points :
  let f := make_UnconstrainedSmootherCostFunction 4 empty_map in
  let p1 := point acc_path 1 in
  let p2 := point acc_path 2 in
  let p3 := point acc_path 3 in
  let c2 := fst (addMaxCurvatureResidual f (Wcurve f) p2 p3 p1 (junk_of 0) 0) in
  addTurningRateChangeJacobian (Wchange f) (turning_rad c2) 0
    (addMaxCurvatureJacobian (Wcurve f) p2 p3 p1 c2
       (addSmoothingJacobian (Wsmooth f) p2 p3 p1 (0, 0))) = (800000, 0) /\
  exists g', snd (Evaluate nav2_thresholds f (junk_of 0) acc_path (Some (repeat 0 8))) = Some g' /\
    nth 2 g' 0 = -800000 /\ nth 4 g' 0 = 0 /\ nth 4 g' 0 <> 800000.
Proof.
  intros f p1 p2 p3 c2.
  split.
  { destruct (acc_path_straight f (junk_of 0) 2 (or_intror eq_refl) eq_refl) as [Hv Ht].
    unfold c2, p1, p2, p3; simpl Nat.add in Hv, Ht; simpl Nat.sub in Hv, Ht.
    rewrite (addMaxCurvatureJacobian_invalid _ _ _ _ _ _ Hv), Ht.
    unfold addTurningRateChangeJacobian, addSmoothingJacobian; cbn.
    f_equal; ring. }
  unfold Evaluate; simpl seq; simpl fold_left.
  rewrite (loop_body_skip _ _ _ (initial_state _ _) 0) by (left; lia).
  set (s0 := initial_state (junk_of 0) (Some (repeat 0 8))).
  (* point 1 *)
  destruct (loop_body_offmap nav2_thresholds f acc_path s0 1 (repeat 0 8))
    as (Hx1 & Hy1 & Hk1 & Hc1 & Hg1); [lia | simpl; lia | reflexivity | reflexivity |].
  set (s1 := loop_body nav2_thresholds f acc_path s0 1) in *.
  destruct (acc_path_straight f (curvature_params s0) 1 (or_introl eq_refl) eq_refl) as [Hv1 Ht1].
  rewrite (addMaxCurvatureJacobian_invalid _ _ _ _ _ _ Hv1), Ht1 in Hx1, Hy1, Hg1.
  rewrite Ht1 in Hk1.
  (* point 2 *)
  destruct (loop_body_offmap nav2_thresholds f acc_path s1 2 _ ltac:(lia) ltac:(simpl; lia)
              eq_refl Hg1) as (Hx2 & Hy2 & Hk2 & Hc2 & Hg2).
  set (s2 := loop_body nav2_thresholds f acc_path s1 2) in *.
  destruct (acc_path_straight f (curvature_params s1) 2 (or_intror eq_refl) eq_refl) as [Hv2 Ht2].
  rewrite (addMaxCurvatureJacobian_invalid _ _ _ _ _ _ Hv2), Ht2, Hk1, Hx1, Hy1 in Hg2.
  (* point 3 is the last point *)
  rewrite (loop_body_skip _ _ _ s2 3) by (right; simpl; lia).
  simpl snd; rewrite Hg2.
  eexists; split; [reflexivity|].
  unfold addTurningRateChangeJacobian, addSmoothingJacobian; cbn.
  repeat split; lra.
Qed.

(** ** The cost-field terms *)

(** C3 (amended): for a value exactly FREE or exactly UNKNOWN the
    cost-avoidance term adds nothing; for a value exactly INSCRIBED the
    collision term is active: it records and adds
    [-Wcollision * (INSCRIBED - MAX_NON_OBSTACLE)^2], which is never
    positive. *)
Theorem field_terms_at_thresholds th n cm p r :
  let f := make_UnconstrainedSmootherCostFunction n cm in
  addCostResidual th (Wcost f) (FREE th) p r = r /\
  addCostResidual th (Wcost f) (UNKNOWN th) p r = r /\
  let '(p', r') := addCollisionResidual th (Wcollision f) (INSCRIBED th) p r in
  cost p' = - Wcollision f * (INSCRIBED th - MAX_NON_OBSTACLE th) ^ 2 /\
  r' = r + cost p' /\ r' <= r.
Proof.
  intros f.
  split; [|split].
  - unfold addCostResidual; rewrite (Reqb_true (FREE th) (FREE th) eq_refl); reflexivity.
  - unfold addCostResidual; rewrite (Reqb_true (UNKNOWN th) (UNKNOWN th) eq_refl), orb_true_r.
    reflexivity.
  - unfold addCollisionResidual.
    rewrite (Rltb_false (INSCRIBED th) (INSCRIBED th)) by lra.
    simpl; split; [ring|split; [reflexivity|]].
    pose proof (pow2_ge_0 (INSCRIBED th - MAX_NON_OBSTACLE th)); nra.
Qed.

(** C3 (counterexample): with the navigation2 thresholds a value exactly
    INSCRIBED (253) makes the collision term contribute -1, a negative
    amount. *)
Lemma collision_at_inscribed_negative :
  let f := make_UnconstrainedSmootherCostFunction 3 empty_map in
  snd (addCollisionResidual nav2_thresholds (Wcollision f) (INSCRIBED nav2_thresholds)
         CostComputations_ctor 0) = -1.
Proof.
  intros f; unfold addCollisionResidual; simpl.
  rewrite (Rltb_false 253 253) by lra; simpl; ring.
Qed.

(** C4 (code bug): the collision term caches its value computed with
    [Wcollision]; the cost-avoidance term then adds that cached value
    instead of its own formula with [Wcost].  At a cell of value 253 the
    reused contribution is -1, the independent one -1/5. *)
Theorem cost_term_reuses_collision_weight :
  let f := make_UnconstrainedSmootherCostFunction 3 empty_map in
  let '(params, r4) := addCollisionResidual nav2_thresholds (Wcollision f) 253
                         CostComputations_ctor 0 in
  r4 = -1 /\ cost params = -1 /\
  addCostResidual nav2_thresholds (Wcost f) 253 params r4 - r4 = -1 /\
  addCostResidual nav2_thresholds (Wcost f) 253 CostComputations_ctor 0 = -1/5.
Proof.
  intros f; unfold addCollisionResidual; simpl.
  rewrite (Rltb_false 253 253) by lra; simpl.
  unfold addCostResidual; simpl.
  rewrite (Reqb_false 253 0), (Reqb_false 253 255) by lra; simpl.
  rewrite (Reqb_false (-1 * 1 * (253 * 253 - 2 * 252 * 253 + 252 * 252)) 0) by lra.
  rewrite (Reqb_true 0 0 eq_refl); simpl.
  repeat split; field.
Qed.

(** ** The cost-field gradient helper *)

(** C5 (code bug): at cell (2, 2) of [stencil_map], whose only non-zero
    cell (0, 2) lies two cells left along the x axis, the x-axis stencil
    is 1/12 and the spec's helper returns the unit vector (1, 0).  The code
    returns (0, 0): its x component uses the y-axis neighbours, and the read
    of (0, 2) into [left_two] is overwritten by the read of (2, 0) meant for
    [down_two]. *)
Theorem costmap_gradient_differs_from_stencil :
  let f := make_UnconstrainedSmootherCostFunction 3 stencil_map in
  let p := getCostmapGradient f 2 2 CostComputations_ctor in
  (gradx p, grady p) = (0, 0) /\
  getCostmapGradient_spec stencil_map 2 2 = (1, 0).
Proof.
  intros f p; split.
  - unfold p, getCostmapGradient, hypot; cbn.
    replace ((8 * 0 - 0 - 8 * 0 + 0) / 12) with 0 by field.
    rewrite Rmult_0_l, Rplus_0_l, sqrt_0, (Rltb_false EPSILON 0) by (pose proof EPSILON_pos; lra).
    reflexivity.
  - unfold getCostmapGradient_spec, five_point, sample, hypot; cbn.
    replace ((8 * 0 - 0 - 8 * 0 + 1) / 12) with (1 / 12) by field.
    replace ((8 * 0 - 0 - 8 * 0 + 0) / 12) with 0 by field.
    replace (1 / 12 * (1 / 12) + 0 * 0) with ((1 / 12) * (1 / 12)) by ring.
    rewrite sqrt_square by lra.
    rewrite (Rltb_true EPSILON (1 / 12)) by (unfold EPSILON; lra).
    f_equal; field.
Qed.

(** ** A degenerate path *)

Lemma addMaxCurvatureResidual_degenerate f w pt pt_p pt_m c r :
  norm (vsub pt pt_m) < EPSILON ->
  addMaxCurvatureResidual f w pt pt_p pt_m c r =
  (set_valid false (mkCurvatureComputations (valid c) (vsub pt pt_m) (vsub pt_p pt)
     (norm (vsub pt pt_m)) (norm (vsub pt_p pt)) (delta_phi_i c) (turning_rad c) (ki_minus_kmax c)),
   r).
Proof.
  intros Hn; unfold addMaxCurvatureResidual; cbv zeta.
  change (mkVector2d (v0 pt - v0 pt_m) (v1 pt - v1 pt_m)) with (vsub pt pt_m).
  change (mkVector2d (v0 pt_p - v0 pt) (v1 pt_p - v1 pt)) with (vsub pt_p pt).
  rewrite (Rltb_true _ _ Hn); reflexivity.
Qed.

(** The cost an interior iteration adds at a point outside the map. *)
Lemma loop_body_offmap_cost th f ps s i :
  (1 <= i)%nat -> (i < NumParameters f / 2 - 1)%nat ->
  worldToMap (costmap f) (nth (2 * i) ps 0) (nth (2 * i + 1) ps 0) = None ->
  let xi := point ps i in
  let xi_p1 := point ps (i + 1) in
  let xi_m1 := point ps (i - 1) in
  let '(cp, r2) := addMaxCurvatureResidual f (Wcurve f) xi xi_p1 xi_m1 (curvature_params s)
                     (addSmoothingResidual (Wsmooth f) xi xi_p1 xi_m1 (cost_raw s)) in
  cost_raw (loop_body th f ps s i) = addTurningRateChangeResidual (Wchange f) (turning_rad cp) (ki_m1 s) r2.
Proof.
  intros H1 H2 Hmap xi xi_p1 xi_m1.
  unfold loop_body.
  replace ((i <? 1)%nat || (NumParameters f / 2 - 1 <=? i)%nat) with false
    by (symmetry; apply orb_false_iff; split; [apply Nat.ltb_ge|apply Nat.leb_gt]; lia).
  unfold xi, xi_p1, xi_m1, point.
  replace (2 * (i + 1) + 1)%nat with (2 * i + 1 + 2)%nat by lia.
  replace (2 * (i + 1))%nat with (2 * i + 2)%nat by lia.
  replace (2 * (i - 1) + 1)%nat with (2 * i + 1 - 2)%nat by lia.
  replace (2 * (i - 1))%nat with (2 * i - 2)%nat by lia.
  destruct (addMaxCurvatureResidual _ _ _ _ _ _ _) as [c r2].
  cbn [v0 v1]; rewrite Hmap.
  destruct (st_gradient s); destruct_lets; reflexivity.
Qed.

(** C9 (code bug): on the path (0,0), (0,0), (1,0) the middle point has a
    zero-length incoming segment.  The curvature-limit term adds nothing
    there, but it returns before assigning [turning_rad], which the
    constructor of the cache never initialises; the curvature-change term
    then reads that indeterminate value [t].  Cost and gradient depend on
    [t]: the cost is [200000 + t * t], not a value fixed by the path. *)
Theorem degenerate_path_reads_indeterminate_turning_rad t :
  let f := make_UnconstrainedSmootherCostFunction 3 empty_map in
  let pt := point degenerate_path 1 in
  let pt_p := point degenerate_path 2 in
  let pt_m := point degenerate_path 0 in
  snd (addMaxCurvatureResidual f (Wcurve f) pt pt_p pt_m
         (CurvatureComputations_ctor (junk_of t)) 0) = 0 /\
  snd (fst (Evaluate nav2_thresholds f (junk_of t) degenerate_path None)) = 200000 + t * t /\
  snd (Evaluate nav2_thresholds f (junk_of t) degenerate_path (Some ([0; 0; 0; 0; 0; 0]))) =
    Some [0; 0; -800000 + 2 * t; 2 * t; 0; 0].
Proof.
  intros f pt pt_p pt_m.
  assert (Hn : norm (vsub pt pt_m) < EPSILON).
  { rewrite (norm_eq _ 0) by (cbn; lra); apply EPSILON_pos. }
  split; [rewrite (addMaxCurvatureResidual_degenerate _ _ _ _ _ _ _ Hn); reflexivity|].
  split.
  - unfold Evaluate; simpl seq; simpl fold_left.
    rewrite (loop_body_skip _ _ _ (initial_state _ _) 0) by (left; lia).
    rewrite (loop_body_skip _ _ _ _ 2) by (right; simpl; lia).
    pose proof (loop_body_offmap_cost nav2_thresholds f degenerate_path
                  (initial_state (junk_of t) None) 1 ltac:(lia) ltac:(simpl; lia) eq_refl) as Hc.
    cbv zeta in Hc.
    rewrite (addMaxCurvatureResidual_degenerate _ _ _ _ _ _ _ Hn) in Hc.
    simpl snd; rewrite Hc.
    unfold addTurningRateChangeResidual, addSmoothingResidual, dot; cbn; ring.
  - unfold Evaluate; simpl seq; simpl fold_left.
    rewrite (loop_body_skip _ _ _ (initial_state _ _) 0) by (left; lia).
    rewrite (loop_body_skip _ _ _ _ 2) by (right; simpl; lia).
    set (s0 := initial_state (junk_of t) (Some ([0; 0; 0; 0; 0; 0]))).
    destruct (loop_body_offmap nav2_thresholds f degenerate_path s0 1 ([0; 0; 0; 0; 0; 0]))
      as (_ & _ & _ & _ & Hg); [lia | simpl; lia | reflexivity | reflexivity |].
    simpl snd; rewrite Hg.
    rewrite (addMaxCurvatureResidual_degenerate _ _ _ _ _ _ _ Hn).
    rewrite addMaxCurvatureJacobian_invalid by reflexivity.
    unfold addTurningRateChangeJacobian, addSmoothingJacobian; cbn.
    f_equal.
    apply f_equal2; [reflexivity|]; apply f_equal2; [reflexivity|].
    apply f_equal2; [ring|]; apply f_equal2; [ring|reflexivity].
Qed.

(** * Further properties of the code *)

(** The smoothing residual adds the weighted squared second difference. *)
Lemma addSmoothingResidual_sq w pt pt_p pt_m r :
  addSmoothingResidual w pt pt_p pt_m r =
  r + w * ((v0 pt_p - 2 * v0 pt + v0 pt_m) ^ 2 + (v1 pt_p - 2 * v1 pt + v1 pt_m) ^ 2).
Proof. unfold addSmoothingResidual, dot; ring. Qed.

(** [addSmoothingResidual] adds [weight * |pt_p - 2 pt + pt_m|^2], the
    squared second difference of the three points.  With a non-negative
    weight it never lowers the running cost; with a positive weight it adds
    nothing exactly when [pt] is the midpoint of its neighbours. *)
Theorem smoothing_residual_second_difference w pt pt_p pt_m r :
  addSmoothingResidual w pt pt_p pt_m r =
    r + w * squaredNorm (mkVector2d (v0 pt_p - 2 * v0 pt + v0 pt_m) (v1 pt_p - 2 * v1 pt + v1 pt_m)) /\
  (0 <= w -> r <= addSmoothingResidual w pt pt_p pt_m r) /\
  (0 < w -> addSmoothingResidual w pt pt_p pt_m r = r <->
     pt = mkVector2d ((v0 pt_p + v0 pt_m) / 2) ((v1 pt_p + v1 pt_m) / 2)).
Proof.
  rewrite addSmoothingResidual_sq; unfold squaredNorm, dot; simpl.
  split; [ring|split].
  - intros Hw. pose proof (pow2_ge_0 (v0 pt_p - 2 * v0 pt + v0 pt_m)).
    pose proof (pow2_ge_0 (v1 pt_p - 2 * v1 pt + v1 pt_m)). nra.
  - intros Hw; split.
    + intros H.
      assert (Hs : (v0 pt_p - 2 * v0 pt + v0 pt_m) ^ 2 + (v1 pt_p - 2 * v1 pt + v1 pt_m) ^ 2 = 0).
      { apply (Rmult_eq_reg_l w); [lra|]. lra. }
      pose proof (pow2_ge_0 (v0 pt_p - 2 * v0 pt + v0 pt_m)).
      pose proof (pow2_ge_0 (v1 pt_p - 2 * v1 pt + v1 pt_m)).
      assert (Hx : v0 pt_p - 2 * v0 pt + v0 pt_m = 0) by nra.
      assert (Hy : v1 pt_p - 2 * v1 pt + v1 pt_m = 0) by nra.
      destruct pt as [x y]; simpl in *; f_equal; lra.
    + intros ->; simpl; field.
Qed.

(** What [addSmoothingJacobian] adds to [j0] (resp. [j1]) is the partial
    derivative of the smoothing residual in the x (resp. y) coordinate of
    [pt]: moving [pt] by [h] along that axis changes the residual by [h]
    times that increment plus [4 * weight * h^2], exactly. *)
Theorem smoothing_jacobian_is_derivative w pt pt_p pt_m r j0 j1 h :
  let '(j0', j1') := addSmoothingJacobian w pt pt_p pt_m (j0, j1) in
  addSmoothingResidual w (mkVector2d (v0 pt + h) (v1 pt)) pt_p pt_m r =
    addSmoothingResidual w pt pt_p pt_m r + h * (j0' - j0) + 4 * w * h ^ 2 /\
  addSmoothingResidual w (mkVector2d (v0 pt) (v1 pt + h)) pt_p pt_m r =
    addSmoothingResidual w pt pt_p pt_m r + h * (j1' - j1) + 4 * w * h ^ 2.
Proof.
  unfold addSmoothingJacobian, addSmoothingResidual, dot; simpl; split; ring.
Qed.

(** [addTurningRateChangeResidual] adds [weight * (ki - ki_m1)^2];
    [addTurningRateChangeJacobian] adds one and the same value to both
    components, and that value is the derivative of the residual with
    respect to [ki]. *)
Theorem turning_rate_change_term w ki ki_m1 r j0 j1 h :
  addTurningRateChangeResidual w ki ki_m1 r = r + w * (ki - ki_m1) ^ 2 /\
  let '(j0', j1') := addTurningRateChangeJacobian w ki ki_m1 (j0, j1) in
  j0' - j0 = j1' - j1 /\
  addTurningRateChangeResidual w (ki + h) ki_m1 r =
    addTurningRateChangeResidual w ki ki_m1 r + h * (j0' - j0) + w * h ^ 2.
Proof.
  unfold addTurningRateChangeResidual, addTurningRateChangeJacobian; simpl.
  split; [ring|split; ring].
Qed.

(** [addCollisionResidual]: below INSCRIBED it changes neither the cache
    nor the running cost; from INSCRIBED on it stores
    [-weight * (value - MAX_NON_OBSTACLE)^2] in [cost], keeps the cached
    gradient, and adds exactly the stored value.  With a non-negative
    weight it never raises the running cost. *)
Theorem collision_residual_behaviour th w value params r :
  let '(params', r') := addCollisionResidual th w value params r in
  (value < INSCRIBED th -> params' = params /\ r' = r) /\
  (INSCRIBED th <= value ->
     cost params' = - w * (value - MAX_NON_OBSTACLE th) ^ 2 /\
     gradx params' = gradx params /\ grady params' = grady params /\
     r' = r + cost params') /\
  (0 <= w -> r' <= r).
Proof.
  unfold addCollisionResidual.
  destruct (Rlt_dec value (INSCRIBED th)) as [Hl|Hl].
  - rewrite (Rltb_true _ _ Hl); repeat split; try lra.
  - rewrite (Rltb_false _ _ (Rnot_lt_le _ _ Hl)); simpl.
    repeat split; try lra; try ring.
    intros Hw; pose proof (pow2_ge_0 (value - MAX_NON_OBSTACLE th)); nra.
Qed.

(** Dividing a vector by its own [hypot] gives a vector of [hypot] 1. *)
Lemma hypot_div x y m : 0 < m -> m = hypot x y -> hypot (x / m) (y / m) = 1.
Proof.
  intros Hm Hh; unfold hypot in *.
  replace (x / m * (x / m) + y / m * (y / m)) with ((x * x + y * y) / (m * m)) by (field; lra).
  assert (Hs : x * x + y * y = m * m).
  { rewrite Hh, sqrt_sqrt; [reflexivity|nra]. }
  rewrite Hs; replace (m * m / (m * m)) with 1 by (field; lra); apply sqrt_1.
Qed.

(** [getCostmapGradient] keeps the cached cost and returns either a unit
    vector or a vector of length at most [EPSILON]. *)
Theorem costmap_gradient_unit_or_small f mx my params :
  let p := getCostmapGradient f mx my params in
  cost p = cost params /\
  (hypot (gradx p) (grady p) = 1 \/ hypot (gradx p) (grady p) <= EPSILON).
Proof.
  unfold getCostmapGradient; cbv zeta.
  match goal with |- context [Rltb EPSILON (hypot ?x ?y)] =>
    destruct (Rlt_dec EPSILON (hypot x y)) as [H|H];
    [rewrite (Rltb_true _ _ H) | rewrite (Rltb_false _ _ (Rnot_lt_le _ _ H))]; simpl
  end.
  - split; [reflexivity|left]. apply hypot_div; [pose proof EPSILON_pos; lra|reflexivity].
  - split; [reflexivity|right; lra].
Qed.

(** For a non-zero [b] and non-zero norms, [normalizedOrthogonalComplement a b]
    is orthogonal to [b], and it is the zero vector when [a] is a multiple
    of [b]. *)
Theorem normalizedOrthogonalComplement_orthogonal a b a_norm b_norm
    (Hb : squaredNorm b <> 0) (Hab : a_norm * b_norm <> 0) :
  dot (normalizedOrthogonalComplement a b a_norm b_norm) b = 0 /\
  forall s, normalizedOrthogonalComplement (svmul s b) b a_norm b_norm = mkVector2d 0 0.
Proof.
  assert (Ha : a_norm <> 0) by (intros E; apply Hab; rewrite E; ring).
  assert (Hbn : b_norm <> 0) by (intros E; apply Hab; rewrite E; ring).
  unfold normalizedOrthogonalComplement, squaredNorm, dot in *; destruct b as [b0 b1];
    simpl in *; split.
  - field; repeat split; assumption.
  - intros s; unfold vdivs, vsub, vmuls; simpl; f_equal; field; repeat split; assumption.
Qed.

(** The hypotheses hold for [a = (1, 1)], [b = (0, 1)] and norms 1. *)
Lemma normalizedOrthogonalComplement_orthogonal_witness :
  squaredNorm (mkVector2d 0 1) <> 0 /\ 1 * 1 <> 0 /\
  (dot (normalizedOrthogonalComplement (mkVector2d 1 1) (mkVector2d 0 1) 1 1) (mkVector2d 0 1) = 0 /\
   forall s, normalizedOrthogonalComplement (svmul s (mkVector2d 0 1)) (mkVector2d 0 1) 1 1 = mkVector2d 0 0).
Proof.
  assert (H1 : squaredNorm (mkVector2d 0 1) <> 0) by (unfold squaredNorm, dot; simpl; lra).
  assert (H2 : 1 * 1 <> 0) by lra.
  split; [exact H1|]; split; [exact H2|].
  exact (normalizedOrthogonalComplement_orthogonal (mkVector2d 1 1) (mkVector2d 0 1) 1 1 H1 H2).
Defined.

(** With a positive weight, [addMaxCurvatureResidual] never sets the
    [valid] flag: it keeps the incoming flag exactly when it adds a
    (positive) penalty and clears it otherwise. *)
Theorem max_curvature_valid_flag f w pt pt_p pt_m c r (Hw : 0 < w) :
  let '(c', r') := addMaxCurvatureResidual f w pt pt_p pt_m c r in
  valid c' = valid c && negb (Reqb r' r) /\ r <= r'.
Proof.
  unfold addMaxCurvatureResidual; cbv zeta.
  destruct (_ || _); simpl.
  - rewrite (Reqb_true r r eq_refl), andb_false_r; split; [reflexivity|lra].
  - match goal with |- context [Rleb ?k EPSILON] =>
      destruct (Rle_dec k EPSILON) as [Hk|Hk];
      [rewrite (Rleb_true _ _ Hk) | rewrite (Rleb_false _ _ (Rnot_le_lt _ _ Hk))]; simpl
    end.
    + rewrite (Reqb_true r r eq_refl), andb_false_r; split; [reflexivity|lra].
    + pose proof EPSILON_pos.
      match goal with |- context [r + w * ?k * ?k] =>
        assert (Hp : 0 < w * k * k) by (apply Rmult_lt_0_compat; [apply Rmult_lt_0_compat|]; lra)
      end.
      rewrite Reqb_false by lra; rewrite andb_true_r; split; [reflexivity|lra].
Qed.

(** A straight 3-point path with weight 2. *)
Lemma max_curvature_valid_flag_witness :
  0 < 2 /\
  let '(c', r') := addMaxCurvatureResidual (make_UnconstrainedSmootherCostFunction 3 empty_map) 2
                     (mkVector2d 1 0) (mkVector2d 2 0) (mkVector2d 0 0) (junk_of 0) 0 in
  valid c' = valid (junk_of 0) && negb (Reqb r' 0) /\ 0 <= r'.
Proof.
  assert (H : 0 < 2) by lra; split; [exact H|].
  exact (max_curvature_valid_flag (make_UnconstrainedSmootherCostFunction 3 empty_map) 2
           (mkVector2d 1 0) (mkVector2d 2 0) (mkVector2d 0 0) (junk_of 0) 0 H).
Defined.

(** When the cache already holds a non-zero gradient, [addCostJacobian]
    does not read the map: its result is the same for any cell and any
    cost function object. *)
Theorem cost_jacobian_reuses_cached_gradient th f1 f2 w mx1 my1 mx2 my2 value params j
    (H : gradx params <> 0 \/ grady params <> 0) :
  addCostJacobian th f1 w mx1 my1 value params j = addCostJacobian th f2 w mx2 my2 value params j.
Proof.
  unfold addCostJacobian.
  replace (Reqb (gradx params) 0 && Reqb (grady params) 0) with false; [reflexivity|].
  destruct H as [H|H]; [rewrite (Reqb_false _ _ H) | rewrite (Reqb_false _ _ H), andb_false_r];
    reflexivity.
Qed.

(** A cache holding the gradient (1, 0). *)
Lemma cost_jacobian_reuses_cached_gradient_witness :
  (gradx (mkCostComputations 0 1 0) <> 0 \/ grady (mkCostComputations 0 1 0) <> 0) /\
  addCostJacobian nav2_thresholds (make_UnconstrainedSmootherCostFunction 3 empty_map) 1 0 0 100
    (mkCostComputations 0 1 0) (0, 0) =
  addCostJacobian nav2_thresholds (make_UnconstrainedSmootherCostFunction 3 stencil_map) 1 2 2 100
    (mkCostComputations 0 1 0) (0, 0).
Proof.
  split; [left; cbn; lra|].
  apply (cost_jacobian_reuses_cached_gradient nav2_thresholds _ _ 1 0 0 2 2 100
           (mkCostComputations 0 1 0) (0, 0)).
  left; cbn; lra.
Defined.

(** [u32] is the identity on values that fit in 32 bits. *)
Lemma u32_small z : (0 <= z < 2 ^ 32)%Z -> u32 z = z.
Proof. intros H; unfold u32; apply Z.mod_small; exact H. Qed.

(** On a cost field of one value [c] (with [c / 12 > EPSILON]), at a cell
    at least two cells away from the low borders and with its two upper
    neighbours inside the grid, [getCostmapGradient] returns [(-1, 0)],
    not the zero vector: [down_two] is never read. *)
Theorem costmap_gradient_uniform_field f mx my c params
    (Hc : forall x y, getCost (costmap f) x y = c) (Hpos : 12 * EPSILON < c)
    (Hx : (2 <= mx /\ mx + 2 <= sizeX (costmap f))%Z)
    (Hy : (2 <= my /\ my + 2 <= sizeY (costmap f))%Z)
    (Hs : (sizeX (costmap f) <= 2 ^ 32 /\ sizeY (costmap f) <= 2 ^ 32)%Z) :
  gradx (getCostmapGradient f mx my params) = -1 /\
  grady (getCostmapGradient f mx my params) = 0.
Proof.
  unfold getCostmapGradient; cbv zeta; rewrite !Hc.
  rewrite (u32_small (mx + 1)), (u32_small (mx - 1)), (u32_small (my + 1)), (u32_small (my - 1))
    by lia.
  rewrite (proj2 (Z.ltb_lt mx _)), (proj2 (Z.ltb_lt (mx + 1) _)), (proj2 (Z.ltb_lt 0 mx)),
    (proj2 (Z.ltb_lt 0 (mx - 1))), (proj2 (Z.ltb_lt my _)), (proj2 (Z.ltb_lt (my + 1) _)),
    (proj2 (Z.ltb_lt 0 my)), (proj2 (Z.ltb_lt 0 (my - 1))) by lia.
  cbv iota.
  replace ((8 * c - c - 8 * c + 0) / 12) with (- (c / 12)) by field.
  replace ((8 * c - c - 8 * c + c) / 12) with 0 by field.
  assert (Hh : hypot (- (c / 12)) 0 = c / 12).
  { unfold hypot; replace (- (c / 12) * - (c / 12) + 0 * 0) with (c / 12 * (c / 12)) by ring.
    apply sqrt_square; pose proof EPSILON_pos; lra. }
  rewrite Hh, (Rltb_true EPSILON (c / 12)) by lra; simpl.
  pose proof EPSILON_pos; split; field; lra.
Qed.

(** The uniform field of value 1 at its centre cell. *)
Lemma costmap_gradient_uniform_field_witness :
  gradx (getCostmapGradient (make_UnconstrainedSmootherCostFunction 3 uniform_map) 2 2
           CostComputations_ctor) = -1 /\
  grady (getCostmapGradient (make_UnconstrainedSmootherCostFunction 3 uniform_map) 2 2
           CostComputations_ctor) = 0.
Proof.
  apply (costmap_gradient_uniform_field _ 2 2 1).
  - intros x y; reflexivity.
  - unfold EPSILON; lra.
  - cbn; lia.
  - cbn; lia.
  - cbn; lia.
Defined.

(** At a cell of the last column, [getCostmapGradient] reads the cell
    [(sizeX, my)] outside the grid, whatever the width of the grid: on a
    field that is 0 everywhere but at that outside cell, it returns the unit
    vector [(0, 1)]. *)
Theorem costmap_gradient_reads_past_last_column f my v params
    (Hsz : (1 <= sizeX (costmap f) < 2 ^ 32)%Z) (Hmy : (0 <= my < sizeY (costmap f))%Z)
    (Hzero : forall x y, x <> sizeX (costmap f) -> getCost (costmap f) x y = 0)
    (Hv : getCost (costmap f) (sizeX (costmap f)) my = v) (Hv1 : 1 <= v) :
  gradx (getCostmapGradient f (sizeX (costmap f) - 1) my params) = 0 /\
  grady (getCostmapGradient f (sizeX (costmap f) - 1) my params) = 1.
Proof.
  unfold getCostmapGradient; cbv zeta.
  set (n := sizeX (costmap f)) in *.
  replace (n - 1 + 1)%Z with n by ring.
  replace (n - 1 + 2)%Z with (n + 1)%Z by ring.
  replace (n - 1 - 1)%Z with (n - 2)%Z by ring.
  replace (n - 1 - 2)%Z with (n - 3)%Z by ring.
  assert (Hne : forall k, (2 <= k <= 3)%Z -> u32 (n - k) <> n).
  { intros k Hk Heq; unfold u32 in Heq.
    pose proof (Z.div_mod (n - k) (2 ^ 32)) as Hd.
    rewrite Heq in Hd; lia. }
  rewrite (u32_small n) by lia.
  rewrite Hv.
  rewrite (Hzero (u32 (n - 2))), (Hzero (u32 (n - 3))) by (apply Hne; lia).
  rewrite !(Hzero (n - 1)%Z) by lia.
  rewrite (proj2 (Z.ltb_lt (n - 1) n)), (proj2 (Z.ltb_ge n n)) by lia.
  cbv iota.
  assert (E : forall b : bool, (if b then 0 else 0) = 0) by (intros []; reflexivity).
  rewrite !E.
  replace ((8 * 0 - 0 - 8 * 0 + 0) / 12) with 0 by field.
  replace ((8 * v - 0 - 8 * 0 + 0) / 12) with (2 * v / 3) by field.
  assert (Hh : hypot 0 (2 * v / 3) = 2 * v / 3).
  { unfold hypot; replace (0 * 0 + 2 * v / 3 * (2 * v / 3)) with (2 * v / 3 * (2 * v / 3)) by ring.
    apply sqrt_square; lra. }
  rewrite Hh, (Rltb_true EPSILON (2 * v / 3)) by (unfold EPSILON; lra); simpl.
  split; field; lra.
Qed.

(** The 1 x 1 grid with a 1 past its only column. *)
Lemma costmap_gradient_reads_past_last_column_witness :
  gradx (getCostmapGradient (make_UnconstrainedSmootherCostFunction 3 past_last_column_map)
           (1 - 1) 0 CostComputations_ctor) = 0 /\
  grady (getCostmapGradient (make_UnconstrainedSmootherCostFunction 3 past_last_column_map)
           (1 - 1) 0 CostComputations_ctor) = 1.
Proof.
  apply (costmap_gradient_reads_past_last_column
           (make_UnconstrainedSmootherCostFunction 3 past_last_column_map) 0 1).
  - cbn; lia.
  - cbn; lia.
  - intros x y Hx; cbn in *. destruct (Z.eqb_spec x 1); [contradiction|reflexivity].
  - reflexivity.
  - lra.
Defined.

(** Away from the borders ([1 <= mx], [mx + 2 < sizeX], and likewise in
    y) [getCostmapGradient] reads only cells of the grid: two maps of the
    same size that agree on the grid give the same result. *)
Theorem costmap_gradient_interior_reads_grid f1 f2 mx my params
    (Hsx : sizeX (costmap f1) = sizeX (costmap f2)) (Hsy : sizeY (costmap f1) = sizeY (costmap f2))
    (Hagree : forall x y, (0 <= x < sizeX (costmap f1))%Z -> (0 <= y < sizeY (costmap f1))%Z ->
                getCost (costmap f1) x y = getCost (costmap f2) x y)
    (Hx : (1 <= mx /\ mx + 2 < sizeX (costmap f1))%Z)
    (Hy : (1 <= my /\ my + 2 < sizeY (costmap f1))%Z)
    (Hs : (sizeX (costmap f1) <= 2 ^ 32 /\ sizeY (costmap f1) <= 2 ^ 32)%Z) :
  getCostmapGradient f1 mx my params = getCostmapGradient f2 mx my params.
Proof.
  unfold getCostmapGradient; cbv zeta.
  rewrite <- Hsx, <- Hsy.
  rewrite (u32_small (mx + 1)), (u32_small (mx + 2)), (u32_small (mx - 1)),
    (u32_small (my + 1)), (u32_small (my + 2)), (u32_small (my - 1)) by lia.
  rewrite (proj2 (Z.ltb_lt mx _)), (proj2 (Z.ltb_lt (mx + 1) _)), (proj2 (Z.ltb_lt 0 mx)),
    (proj2 (Z.ltb_lt my _)), (proj2 (Z.ltb_lt (my + 1) _)), (proj2 (Z.ltb_lt 0 my)) by lia.
  destruct (Z.eq_dec mx 1) as [Ex|Ex];
    [rewrite (proj2 (Z.ltb_ge 0 (mx - 1))) by lia
    |rewrite (proj2 (Z.ltb_lt 0 (mx - 1))), (u32_small (mx - 2)) by lia];
  (destruct (Z.eq_dec my 1) as [Ey|Ey];
    [rewrite (proj2 (Z.ltb_ge 0 (my - 1))) by lia
    |rewrite (proj2 (Z.ltb_lt 0 (my - 1))), (u32_small (my - 2)) by lia]);
  cbv iota;
  repeat match goal with
  | |- context [getCost (costmap f1) ?x ?y] => rewrite (Hagree x y) by lia
  end; reflexivity.
Qed.

(** The two 4 x 4 maps at cell (1, 1). *)
Lemma costmap_gradient_interior_reads_grid_witness :
  getCostmapGradient (make_UnconstrainedSmootherCostFunction 3 grid_map_a) 1 1 CostComputations_ctor =
  getCostmapGradient (make_UnconstrainedSmootherCostFunction 3 grid_map_b) 1 1 CostComputations_ctor.
Proof.
  apply costmap_gradient_interior_reads_grid.
  - reflexivity.
  - reflexivity.
  - intros x y Hx Hy; cbn in *.
    replace ((0 <=? x)%Z && (x <? 4)%Z && (0 <=? y)%Z && (y <? 4)%Z) with true; [reflexivity|].
    symmetry; repeat rewrite andb_true_iff; repeat split;
      first [apply Z.leb_le | apply Z.ltb_lt]; lia.
  - cbn; lia.
  - cbn; lia.
  - cbn; lia.
Defined.

(** A loop over indices that are all skipped leaves the state as it is. *)
Lemma fold_skip th f ps is s :
  (forall i, In i is -> (i < 1 \/ NumParameters f / 2 - 1 <= i)%nat) ->
  fold_left (loop_body th f ps) is s = s.
Proof.
  revert s; induction is as [|i is IH]; simpl; intros s H; [reflexivity|].
  rewrite loop_body_skip by (apply H; left; reflexivity).
  apply IH; intros j Hj; apply H; right; exact Hj.
Qed.

(** A path of at most two points has no interior point: [Evaluate] returns
    true, cost 0 and the caller's gradient buffer unchanged. *)
Theorem Evaluate_short_path th f junk parameters g (H : (NumParameters f / 2 <= 2)%nat) :
  Evaluate th f junk parameters g = (true, 0, g).
Proof.
  unfold Evaluate; rewrite fold_skip; [reflexivity|].
  intros i Hi; apply in_seq in Hi; lia.
Qed.

(** A 2-point path. *)
Lemma Evaluate_short_path_witness :
  (NumParameters (make_UnconstrainedSmootherCostFunction 2 empty_map) / 2 <= 2)%nat /\
  Evaluate nav2_thresholds (make_UnconstrainedSmootherCostFunction 2 empty_map) (junk_of 0)
    [0; 0; 1; 0] (Some [1; 2; 3; 4]) = (true, 0, Some [1; 2; 3; 4]).
Proof.
  assert (H : (NumParameters (make_UnconstrainedSmootherCostFunction 2 empty_map) / 2 <= 2)%nat)
    by (cbn; lia).
  split; [exact H|].
  exact (Evaluate_short_path nav2_thresholds _ (junk_of 0) [0; 0; 1; 0] (Some [1; 2; 3; 4]) H).
Defined.


(** The curvature-limit term adds an amount independent of the running cost. *)
Lemma addMaxCurvatureResidual_snd f w pt pt_p pt_m c r :
  snd (addMaxCurvatureResidual f w pt pt_p pt_m c r) =
  r + snd (addMaxCurvatureResidual f w pt pt_p pt_m c 0).
Proof.
  unfold addMaxCurvatureResidual; cbv zeta.
  destruct (_ || _); simpl; [ring|].
  destruct (Rleb _ _); simpl; ring.
Qed.

(** An interior iteration: the new curvature cache, the carried
    [ki_m1], the running cost and the cached cost-field value. *)
Lemma loop_body_interior th f ps s i :
  (1 <= i)%nat -> (i < NumParameters f / 2 - 1)%nat ->
  let xi := point ps i in
  let xi_p1 := point ps (i + 1) in
  let xi_m1 := point ps (i - 1) in
  let cp := fst (addMaxCurvatureResidual f (Wcurve f) xi xi_p1 xi_m1 (curvature_params s) 0) in
  let r2 := snd (addMaxCurvatureResidual f (Wcurve f) xi xi_p1 xi_m1 (curvature_params s)
                   (addSmoothingResidual (Wsmooth f) xi xi_p1 xi_m1 (cost_raw s))) in
  let r3 := addTurningRateChangeResidual (Wchange f) (turning_rad cp) (ki_m1 s) r2 in
  let s' := loop_body th f ps s i in
  curvature_params s' = cp /\ ki_m1 s' = turning_rad cp /\
  match worldToMap (costmap f) (v0 xi) (v1 xi) with
  | None => cost_raw s' = r3 /\ cost (cost_params s') = cost (cost_params s)
  | Some (mx, my) =>
      let v := getCost (costmap f) mx my in
      let '(params1, r4) := addCollisionResidual th (Wcollision f) v (cost_params s) r3 in
      cost_raw s' = addCostResidual th (Wcost f) v params1 r4 /\ cost (cost_params s') = cost params1
  end.
Proof.
  intros H1 H2 xi xi_p1 xi_m1 cp r2 r3 s'.
  unfold s', loop_body.
  replace ((i <? 1)%nat || (NumParameters f / 2 - 1 <=? i)%nat) with false
    by (symmetry; apply orb_false_iff; split; [apply Nat.ltb_ge|apply Nat.leb_gt]; lia).
  unfold r3, r2, cp, xi, xi_p1, xi_m1, point.
  replace (2 * (i + 1) + 1)%nat with (2 * i + 1 + 2)%nat by lia.
  replace (2 * (i + 1))%nat with (2 * i + 2)%nat by lia.
  replace (2 * (i - 1) + 1)%nat with (2 * i + 1 - 2)%nat by lia.
  replace (2 * (i - 1))%nat with (2 * i - 2)%nat by lia.
  set (r1 := addSmoothingResidual _ _ _ _ (cost_raw s)).
  rewrite (addMaxCurvatureResidual_fst _ _ _ _ _ _ 0 r1).
  destruct (addMaxCurvatureResidual _ _ _ _ _ _ r1) as [c r2']; simpl fst; simpl snd.
  cbn [v0 v1].
  destruct (worldToMap _ _ _) as [[mx my]|].
  - destruct (addCollisionResidual _ _ _ _ _) as [p1 r4].
    destruct (st_gradient s); simpl;
      repeat match goal with
      | |- context [addCollisionJacobian ?a ?b ?c ?d ?e ?v ?q ?j] =>
          let E := fresh in
          pose proof (addCollisionJacobian_cost a b c d e v q j) as E;
          destruct (addCollisionJacobian a b c d e v q j) as [? ?]; simpl in E
      | |- context [addCostJacobian ?a ?b ?c ?d ?e ?v ?q ?j] =>
          let E := fresh in
          pose proof (addCostJacobian_cost a b c d e v q j) as E;
          destruct (addCostJacobian a b c d e v q j) as [? ?]; simpl in E
      end; simpl; repeat split; congruence.
  - destruct (st_gradient s); simpl; repeat split.
Qed.




(** A relation preserved by each step of two loops is preserved by the loops. *)
Lemma fold_rel (step1 step2 : EvalState -> nat -> EvalState) (Rel : EvalState -> EvalState -> Prop)
    is s1 s2 :
  (forall i t1 t2, In i is -> Rel t1 t2 -> Rel (step1 t1 i) (step2 t2 i)) ->
  Rel s1 s2 -> Rel (fold_left step1 is s1) (fold_left step2 is s2).
Proof.
  revert s1 s2; induction is as [|i is IH]; simpl; intros s1 s2 Hstep H; [exact H|].
  apply IH; [intros j t1 t2 Hj; apply Hstep; right; exact Hj|].
  apply Hstep; [left; reflexivity|exact H].
Qed.

(** An invariant preserved by each step is preserved by the loop. *)
Lemma fold_inv (step : EvalState -> nat -> EvalState) (Inv : EvalState -> Prop) is s :
  (forall i t, In i is -> Inv t -> Inv (step t i)) -> Inv s -> Inv (fold_left step is s).
Proof.
  revert s; induction is as [|i is IH]; simpl; intros s Hstep H; [exact H|].
  apply IH; [intros j t Hj; apply Hstep; right; exact Hj|].
  apply Hstep; [left; reflexivity|exact H].
Qed.

(** Monotonicity of the geometric residuals for non-negative weights. *)
Lemma addSmoothingResidual_ge w pt pt_p pt_m r :
  0 <= w -> r <= addSmoothingResidual w pt pt_p pt_m r.
Proof.
  intros Hw; rewrite addSmoothingResidual_sq.
  pose proof (pow2_ge_0 (v0 pt_p - 2 * v0 pt + v0 pt_m)).
  pose proof (pow2_ge_0 (v1 pt_p - 2 * v1 pt + v1 pt_m)). nra.
Qed.

Lemma addTurningRateChangeResidual_ge w ki ki_m1 r :
  0 <= w -> r <= addTurningRateChangeResidual w ki ki_m1 r.
Proof.
  intros Hw; unfold addTurningRateChangeResidual.
  pose proof (pow2_ge_0 (ki - ki_m1)). nra.
Qed.

Lemma addMaxCurvatureResidual_snd_ge f w pt pt_p pt_m c r :
  0 <= w -> r <= snd (addMaxCurvatureResidual f w pt pt_p pt_m c r).
Proof.
  intros Hw; unfold addMaxCurvatureResidual; cbv zeta.
  destruct (_ || _); simpl; [lra|].
  destruct (Rleb _ _); simpl; [lra|].
  match goal with |- _ <= _ + w * ?k * ?k => pose proof (pow2_ge_0 k) end. nra.
Qed.

(** The two cost-field residuals together never raise the running cost,
    and keep the cached value non-positive, for non-negative weights and a
    non-positive cached value. *)
Lemma field_terms_nonpos th wc wk v p r :
  0 <= wc -> 0 <= wk -> cost p <= 0 ->
  let '(p1, r4) := addCollisionResidual th wc v p r in
  addCostResidual th wk v p1 r4 <= r /\ cost p1 <= 0.
Proof.
  intros Hc Hk Hp.
  assert (Hp1 : let '(p1, r4) := addCollisionResidual th wc v p r in r4 <= r /\ cost p1 <= 0).
  { unfold addCollisionResidual; destruct (Rltb _ _); simpl; [lra|].
    match goal with |- context [-1 * wc * ?e] =>
      assert (He : e = (v - MAX_NON_OBSTACLE th) ^ 2) by ring end.
    rewrite He; pose proof (pow2_ge_0 (v - MAX_NON_OBSTACLE th)); split; nra. }
  destruct (addCollisionResidual th wc v p r) as [p1 r4]; destruct Hp1 as [Hr4 Hc1].
  split; [|exact Hc1].
  unfold addCostResidual; destruct (_ || _); [lra|].
  destruct (negb _); [lra|].
  match goal with |- context [-1 * wk * ?e] =>
    assert (He : e = (v - MAX_NON_OBSTACLE th) ^ 2) by ring end.
  rewrite He; pose proof (pow2_ge_0 (v - MAX_NON_OBSTACLE th)); nra.
Qed.

(** With non-negative smoothing, curvature and curvature-change weights,
    the cost of a path whose interior points all lie outside the map is
    non-negative. *)
Theorem Evaluate_cost_nonneg_off_map th f junk parameters gradient
    (Hw : 0 <= Wsmooth f /\ 0 <= Wcurve f /\ 0 <= Wchange f)
    (Hoff : forall i, (1 <= i)%nat -> (i + 1 < NumParameters f / 2)%nat ->
       worldToMap (costmap f) (v0 (point parameters i)) (v1 (point parameters i)) = None) :
  0 <= snd (fst (Evaluate th f junk parameters gradient)).
Proof.
  unfold Evaluate; simpl snd.
  apply (fold_inv (loop_body th f parameters) (fun s => 0 <= cost_raw s)); [|simpl; lra].
  intros i t1 Hi Ht.
  apply in_seq in Hi.
  destruct (Nat.lt_ge_cases i 1) as [Hi1|Hi1];
    [rewrite loop_body_skip by lia; exact Ht|].
  destruct (Nat.lt_ge_cases i (NumParameters f / 2 - 1)) as [Hi2|Hi2];
    [|rewrite loop_body_skip by lia; exact Ht].
  pose proof (loop_body_interior th f parameters t1 i Hi1 Hi2) as H; cbv zeta in H.
  destruct H as (_ & _ & H); rewrite (Hoff i Hi1 ltac:(lia)) in H; destruct H as [-> _].
  destruct Hw as (Hs & Hc & Hk).
  eapply Rle_trans; [|apply addTurningRateChangeResidual_ge, Hk].
  eapply Rle_trans; [|apply addMaxCurvatureResidual_snd_ge, Hc].
  eapply Rle_trans; [exact Ht|apply addSmoothingResidual_ge, Hs].
Qed.

(** A 3-point path outside the empty map, with the constructor weights. *)
Lemma Evaluate_cost_nonneg_off_map_witness :
  let f := make_UnconstrainedSmootherCostFunction 3 empty_map in
  (0 <= Wsmooth f /\ 0 <= Wcurve f /\ 0 <= Wchange f) /\
  (forall i, (1 <= i)%nat -> (i + 1 < NumParameters f / 2)%nat ->
     worldToMap (costmap f) (v0 (point [0; 0; 1; 1; 3; 0] i)) (v1 (point [0; 0; 1; 1; 3; 0] i)) = None) /\
  0 <= snd (fst (Evaluate nav2_thresholds f (junk_of 0) [0; 0; 1; 1; 3; 0] None)).
Proof.
  intros f.
  assert (Hw : 0 <= Wsmooth f /\ 0 <= Wcurve f /\ 0 <= Wchange f) by (cbn; lra).
  assert (Hoff : forall i, (1 <= i)%nat -> (i + 1 < NumParameters f / 2)%nat ->
     worldToMap (costmap f) (v0 (point [0; 0; 1; 1; 3; 0] i)) (v1 (point [0; 0; 1; 1; 3; 0] i)) = None)
    by (intros; reflexivity).
  split; [exact Hw|]; split; [exact Hoff|].
  exact (Evaluate_cost_nonneg_off_map nav2_thresholds f (junk_of 0) _ None Hw Hoff).
Defined.

(** The curvature-limit term does not look at the map. *)
Lemma addMaxCurvatureResidual_off_map f :
  addMaxCurvatureResidual (off_map f) = addMaxCurvatureResidual f.
Proof. reflexivity. Qed.

(** With non-negative [Wcollision] and [Wcost], the cost-field terms never
    raise the cost: [Evaluate]'s cost is at most the cost of the same path
    for the same cost function with a map that contains none of its
    points, whatever the gradient buffers. *)
Theorem Evaluate_field_terms_never_raise_cost th f junk parameters g1 g2
    (Hw : 0 <= Wcollision f /\ 0 <= Wcost f) :
  snd (fst (Evaluate th f junk parameters g1)) <=
  snd (fst (Evaluate th (off_map f) junk parameters g2)).
Proof.
  unfold Evaluate; simpl snd.
  change (NumParameters (off_map f)) with (NumParameters f).
  apply (fold_rel (loop_body th f parameters) (loop_body th (off_map f) parameters)
           (fun s1 s2 => cost_raw s1 <= cost_raw s2 /\ ki_m1 s1 = ki_m1 s2 /\
              curvature_params s1 = curvature_params s2 /\ cost (cost_params s1) <= 0));
    [|simpl; repeat split; lra].
  intros i t1 t2 Hi (Hr & Hk & Hc & Hp).
  apply in_seq in Hi.
  destruct (Nat.lt_ge_cases i 1) as [Hi1|Hi1];
    [rewrite !loop_body_skip by (change (NumParameters (off_map f)) with (NumParameters f); lia);
     auto|].
  destruct (Nat.lt_ge_cases i (NumParameters f / 2 - 1)) as [Hi2|Hi2];
    [|rewrite !loop_body_skip by (change (NumParameters (off_map f)) with (NumParameters f); lia);
      auto].
  pose proof (loop_body_interior th f parameters t1 i Hi1 Hi2) as H1; cbv zeta in H1.
  pose proof (loop_body_interior th (off_map f) parameters t2 i Hi1 Hi2) as H2; cbv zeta in H2.
  rewrite addMaxCurvatureResidual_off_map in H2.
  cbn [off_map costmap worldToMap Wcurve Wsmooth Wchange] in H2.
  destruct H2 as (Hc2 & Hk2 & Hr2 & _).
  destruct H1 as (Hc1 & Hk1 & H1).
  rewrite <- Hc, <- Hk in *.
  assert (E2 : cost_raw t1 + Wsmooth f * (dot (point parameters (i + 1)) (point parameters (i + 1))
      - 4 * dot (point parameters (i + 1)) (point parameters i)
      + 2 * dot (point parameters (i + 1)) (point parameters (i - 1))
      + 4 * dot (point parameters i) (point parameters i)
      - 4 * dot (point parameters i) (point parameters (i - 1))
      + dot (point parameters (i - 1)) (point parameters (i - 1))) <=
    cost_raw t2 + Wsmooth f * (dot (point parameters (i + 1)) (point parameters (i + 1))
      - 4 * dot (point parameters (i + 1)) (point parameters i)
      + 2 * dot (point parameters (i + 1)) (point parameters (i - 1))
      + 4 * dot (point parameters i) (point parameters i)
      - 4 * dot (point parameters i) (point parameters (i - 1))
      + dot (point parameters (i - 1)) (point parameters (i - 1)))) by lra.
  unfold addTurningRateChangeResidual, addSmoothingResidual in *.
  rewrite (addMaxCurvatureResidual_snd _ _ _ _ _ _ (cost_raw t1 + _)) in H1.
  rewrite (addMaxCurvatureResidual_snd _ _ _ _ _ _ (cost_raw t2 + _)) in Hr2.
  split; [|split; [congruence|split; [congruence|]]];
  (destruct (worldToMap _ _ _) as [[mx my]|];
   [match type of H1 with context [addCollisionResidual th ?wc ?v ?p ?r] =>
      pose proof (field_terms_nonpos th wc (Wcost f) v p r (proj1 Hw) (proj2 Hw) Hp) as Hf;
      destruct (addCollisionResidual th wc v p r) as [p1 r4]
    end|];
   destruct H1 as [H1a H1b]).
  - destruct Hf as [Hf1 _]; rewrite H1a, Hr2; lra.
  - rewrite H1a, Hr2; lra.
  - destruct Hf as [_ Hf2]; rewrite H1b; exact Hf2.
  - rewrite H1b; exact Hp.
Qed.

(** The 3-point path on the stencil map with the constructor weights. *)
Lemma Evaluate_field_terms_never_raise_cost_witness :
  (0 <= Wcollision (make_UnconstrainedSmootherCostFunction 3 stencil_map) /\
   0 <= Wcost (make_UnconstrainedSmootherCostFunction 3 stencil_map)) /\
  snd (fst (Evaluate nav2_thresholds (make_UnconstrainedSmootherCostFunction 3 stencil_map)
              (junk_of 0) [0; 0; 1; 0; 2; 0] None)) <=
  snd (fst (Evaluate nav2_thresholds (off_map (make_UnconstrainedSmootherCostFunction 3 stencil_map))
              (junk_of 0) [0; 0; 1; 0; 2; 0] None)).
Proof.
  split; [cbn; lra|].
  apply Evaluate_field_terms_never_raise_cost; cbn; lra.
Defined.

(** The curvature-limit term depends only on the differences of the points. *)
Lemma addMaxCurvatureResidual_translate f w pt pt_p pt_m tx ty c r :
  addMaxCurvatureResidual f w (mkVector2d (v0 pt + tx) (v1 pt + ty))
    (mkVector2d (v0 pt_p + tx) (v1 pt_p + ty)) (mkVector2d (v0 pt_m + tx) (v1 pt_m + ty)) c r =
  addMaxCurvatureResidual f w pt pt_p pt_m c r.
Proof.
  unfold addMaxCurvatureResidual; cbn [v0 v1].
  replace (v0 pt + tx - (v0 pt_m + tx)) with (v0 pt - v0 pt_m) by ring.
  replace (v1 pt + ty - (v1 pt_m + ty)) with (v1 pt - v1 pt_m) by ring.
  replace (v0 pt_p + tx - (v0 pt + tx)) with (v0 pt_p - v0 pt) by ring.
  replace (v1 pt_p + ty - (v1 pt + ty)) with (v1 pt_p - v1 pt) by ring.
  reflexivity.
Qed.

(** So does the smoothing term. *)
Lemma addSmoothingResidual_translate w pt pt_p pt_m tx ty r :
  addSmoothingResidual w (mkVector2d (v0 pt + tx) (v1 pt + ty))
    (mkVector2d (v0 pt_p + tx) (v1 pt_p + ty)) (mkVector2d (v0 pt_m + tx) (v1 pt_m + ty)) r =
  addSmoothingResidual w pt pt_p pt_m r.
Proof. unfold addSmoothingResidual, dot; cbn [v0 v1]; ring. Qed.

(** Shifting every point of a path by the same vector [(tx, ty)] leaves
    the cost unchanged when the map contains none of the interior points of
    either path. *)
Theorem Evaluate_cost_translation_invariant_off_map th f junk parameters parameters' tx ty g1 g2
    (Hshift : forall k, (k < NumParameters f / 2)%nat ->
       point parameters' k = mkVector2d (v0 (point parameters k) + tx) (v1 (point parameters k) + ty))
    (Hoff : forall i, (1 <= i)%nat -> (i + 1 < NumParameters f / 2)%nat ->
       worldToMap (costmap f) (v0 (point parameters i)) (v1 (point parameters i)) = None /\
       worldToMap (costmap f) (v0 (point parameters' i)) (v1 (point parameters' i)) = None) :
  snd (fst (Evaluate th f junk parameters' g2)) = snd (fst (Evaluate th f junk parameters g1)).
Proof.
  unfold Evaluate; simpl snd.
  apply (fold_rel (loop_body th f parameters') (loop_body th f parameters) same_cost_state);
    [|unfold same_cost_state; simpl; auto].
  intros i t1 t2 Hi (Hr & Hk & Hc & Hp).
  apply in_seq in Hi.
  destruct (Nat.lt_ge_cases i 1) as [Hi1|Hi1];
    [rewrite !loop_body_skip by lia; unfold same_cost_state; auto|].
  destruct (Nat.lt_ge_cases i (NumParameters f / 2 - 1)) as [Hi2|Hi2];
    [|rewrite !loop_body_skip by lia; unfold same_cost_state; auto].
  destruct (Hoff i Hi1 ltac:(lia)) as [Ho Ho'].
  pose proof (loop_body_interior th f parameters' t1 i Hi1 Hi2) as H1; cbv zeta in H1.
  pose proof (loop_body_interior th f parameters t2 i Hi1 Hi2) as H2; cbv zeta in H2.
  rewrite Ho' in H1; rewrite Ho in H2.
  rewrite (Hshift i), (Hshift (i + 1)%nat), (Hshift (i - 1)%nat) in H1 by lia.
  rewrite !addMaxCurvatureResidual_translate, addSmoothingResidual_translate in H1.
  destruct H1 as (Hc1 & Hk1 & Hr1 & Hp1), H2 as (Hc2 & Hk2 & Hr2 & Hp2).
  unfold same_cost_state; rewrite Hc1, Hc2, Hk1, Hk2, Hr1, Hr2, Hp1, Hp2, Hr, Hk, Hc.
  repeat split; auto.
Qed.

(** A 3-point path shifted by (1, 1). *)
Lemma Evaluate_cost_translation_invariant_off_map_witness :
  let f := make_UnconstrainedSmootherCostFunction 3 empty_map in
  (forall k, (k < NumParameters f / 2)%nat ->
     point [1; 1; 2; 2; 4; 1] k =
     mkVector2d (v0 (point [0; 0; 1; 1; 3; 0] k) + 1) (v1 (point [0; 0; 1; 1; 3; 0] k) + 1)) /\
  (forall i, (1 <= i)%nat -> (i + 1 < NumParameters f / 2)%nat ->
     worldToMap (costmap f) (v0 (point [0; 0; 1; 1; 3; 0] i)) (v1 (point [0; 0; 1; 1; 3; 0] i)) = None /\
     worldToMap (costmap f) (v0 (point [1; 1; 2; 2; 4; 1] i)) (v1 (point [1; 1; 2; 2; 4; 1] i)) = None) /\
  snd (fst (Evaluate nav2_thresholds f (junk_of 0) [1; 1; 2; 2; 4; 1] None)) =
  snd (fst (Evaluate nav2_thresholds f (junk_of 0) [0; 0; 1; 1; 3; 0] None)).
Proof.
  intros f.
  assert (Hs : forall k, (k < NumParameters f / 2)%nat ->
     point [1; 1; 2; 2; 4; 1] k =
     mkVector2d (v0 (point [0; 0; 1; 1; 3; 0] k) + 1) (v1 (point [0; 0; 1; 1; 3; 0] k) + 1)).
  { intros k Hk; cbn in Hk.
    destruct k as [|[|[|k]]]; [| | |lia]; unfold point; simpl; f_equal; ring. }
  assert (Ho : forall i, (1 <= i)%nat -> (i + 1 < NumParameters f / 2)%nat ->
     worldToMap (costmap f) (v0 (point [0; 0; 1; 1; 3; 0] i)) (v1 (point [0; 0; 1; 1; 3; 0] i)) = None /\
     worldToMap (costmap f) (v0 (point [1; 1; 2; 2; 4; 1] i)) (v1 (point [1; 1; 2; 2; 4; 1] i)) = None)
    by (intros; split; reflexivity).
  split; [exact Hs|]; split; [exact Ho|].
  exact (Evaluate_cost_translation_invariant_off_map nav2_thresholds f (junk_of 0)
           [0; 0; 1; 1; 3; 0] [1; 1; 2; 2; 4; 1] 1 1 None None Hs Ho).
Defined.

(** An interior iteration with a gradient buffer at a point outside the map
    or on a FREE cell: the running gradient and the slots written. *)
Lemma loop_body_interior_grad th f ps s i g :
  (1 <= i)%nat -> (i < NumParameters f / 2 - 1)%nat ->
  st_gradient s = Some g ->
  match worldToMap (costmap f) (v0 (point ps i)) (v1 (point ps i)) with
  | None => True
  | Some (mx, my) => getCost (costmap f) mx my = FREE th
  end ->
  FREE th < INSCRIBED th ->
  forall jx jy,
  addTurningRateChangeJacobian (Wchange f)
    (turning_rad (fst (addMaxCurvatureResidual f (Wcurve f) (point ps i) (point ps (i + 1))
                         (point ps (i - 1)) (curvature_params s) 0))) (ki_m1 s)
    (addMaxCurvatureJacobian (Wcurve f) (point ps i) (point ps (i + 1)) (point ps (i - 1))
       (fst (addMaxCurvatureResidual f (Wcurve f) (point ps i) (point ps (i + 1))
               (point ps (i - 1)) (curvature_params s) 0))
       (addSmoothingJacobian (Wsmooth f) (point ps i) (point ps (i + 1)) (point ps (i - 1))
          (grad_x_raw s, grad_y_raw s))) = (jx, jy) ->
  grad_x_raw (loop_body th f ps s i) = jx /\ grad_y_raw (loop_body th f ps s i) = jy /\
  st_gradient (loop_body th f ps s i) =
    Some (list_set (2 * i + 1) jy (list_set (2 * i) jx
            (list_set (2 * i + 1) 0 (list_set (2 * i) 0 g)))).
Proof.
  intros H1 H2 Hg Hcell Hth jx jy Hj.
  unfold loop_body.
  replace ((i <? 1)%nat || (NumParameters f / 2 - 1 <=? i)%nat) with false
    by (symmetry; apply orb_false_iff; split; [apply Nat.ltb_ge|apply Nat.leb_gt]; lia).
  unfold point in Hj, Hcell.
  replace (2 * (i + 1) + 1)%nat with (2 * i + 1 + 2)%nat in Hj by lia.
  replace (2 * (i + 1))%nat with (2 * i + 2)%nat in Hj by lia.
  replace (2 * (i - 1) + 1)%nat with (2 * i + 1 - 2)%nat in Hj by lia.
  replace (2 * (i - 1))%nat with (2 * i - 2)%nat in Hj by lia.
  set (r1 := addSmoothingResidual _ _ _ _ (cost_raw s)).
  rewrite (addMaxCurvatureResidual_fst _ _ _ _ _ _ 0 r1) in Hj.
  destruct (addMaxCurvatureResidual _ _ _ _ _ _ r1) as [c r2]; simpl fst in Hj.
  cbn [v0 v1] in Hcell |- *; rewrite Hg; cbv zeta; rewrite Hj.
  destruct (worldToMap _ _ _) as [[mx my]|].
  - rewrite Hcell.
    unfold addCollisionResidual, addCollisionJacobian.
    rewrite (Rltb_true _ _ Hth); simpl.
    unfold addCostJacobian.
    rewrite (Reqb_true (FREE th) (FREE th) eq_refl); simpl; auto.
  - simpl; auto.
Qed.

(** At a point whose two segments are the same vector [d] (not shorter than
    [EPSILON]) the curvature-limit term adds nothing, clears the flag and
    records a turning rate of 0. *)
Lemma straight_curvature f w pt pt_p pt_m d c r :
  vsub pt pt_m = d -> vsub pt_p pt = d -> EPSILON <= norm d -> 0 <= max_turning_radius f ->
  valid (fst (addMaxCurvatureResidual f w pt pt_p pt_m c r)) = false /\
  turning_rad (fst (addMaxCurvatureResidual f w pt pt_p pt_m c r)) = 0 /\
  snd (addMaxCurvatureResidual f w pt pt_p pt_m c r) = r.
Proof.
  intros E1 E2 Hd Hmax.
  pose proof EPSILON_pos as He.
  assert (Hnn : norm d * norm d = dot d d).
  { unfold norm, squaredNorm; apply sqrt_sqrt; unfold dot; nra. }
  assert (Hp : dot (vsub pt pt_m) (vsub pt_p pt) / (norm d * norm d) = 1).
  { rewrite E1, E2, Hnn; field; rewrite <- Hnn; nra. }
  rewrite (addMaxCurvatureResidual_eval _ _ _ _ _ _ _ (norm d) (norm d) 1
             ltac:(rewrite E1; reflexivity) ltac:(rewrite E2; reflexivity) Hd Hd Hp).
  cbv zeta.
  rewrite (Rltb_true (Rabs (1 - 1)) EPSILON)
    by (replace (1 - 1) with 0 by ring; rewrite Rabs_R0; exact He).
  simpl orb; cbv iota; rewrite acos_1.
  replace (0 / norm d) with 0 by (field; lra).
  rewrite (Rleb_true (0 - max_turning_radius f) EPSILON) by lra.
  simpl; repeat split.
Qed.

(** Without a gradient buffer an iteration leaves the running gradient alone. *)
Lemma loop_body_nograd th f ps s i :
  st_gradient s = None ->
  grad_x_raw (loop_body th f ps s i) = grad_x_raw s /\
  grad_y_raw (loop_body th f ps s i) = grad_y_raw s /\
  st_gradient (loop_body th f ps s i) = None.
Proof.
  intros Hg; unfold loop_body.
  destruct (_ || _); [auto|].
  destruct (addMaxCurvatureResidual _ _ _ _ _ _ _).
  destruct (worldToMap _ _ _) as [[mx my]|]; rewrite Hg; destruct_lets; simpl; auto.
Qed.

(** Writing 0 to a slot makes it read 0. *)
Lemma nth_list_set_same_zero n l : nth n (list_set n 0 l) 0 = 0.
Proof.
  revert n; induction l as [|h t IH]; intros [|n]; simpl; auto; destruct n; reflexivity.
Qed.

(** An evenly spaced straight path [a + k d] (with [|d| >= EPSILON] and a
    non-negative maximum turning radius) whose interior points lie outside
    the map or on FREE cells (FREE below INSCRIBED) has cost 0, and
    [Evaluate] writes 0 to every interior slot of the gradient buffer. *)
Theorem Evaluate_straight_path_stationary th f junk parameters a d gradient
    (Hline : forall k, (k < NumParameters f / 2)%nat ->
       point parameters k = mkVector2d (v0 a + INR k * v0 d) (v1 a + INR k * v1 d))
    (Hd : EPSILON <= norm d) (Hmax : 0 <= max_turning_radius f)
    (Hfree : forall i, (1 <= i)%nat -> (i + 1 < NumParameters f / 2)%nat ->
       match worldToMap (costmap f) (v0 (point parameters i)) (v1 (point parameters i)) with
       | None => True
       | Some (mx, my) => getCost (costmap f) mx my = FREE th
       end)
    (Hth : FREE th < INSCRIBED th) :
  snd (fst (Evaluate th f junk parameters gradient)) = 0 /\
  forall g', snd (Evaluate th f junk parameters gradient) = Some g' ->
    forall k, (2 <= k < 2 * (NumParameters f / 2) - 2)%nat -> nth k g' 0 = 0.
Proof.
  set (N := (NumParameters f / 2)%nat) in *.
  set (P := fun (n : nat) (s : EvalState) =>
    cost_raw s = 0 /\ grad_x_raw s = 0 /\ grad_y_raw s = 0 /\ ki_m1 s = 0 /\
    forall g, st_gradient s = Some g ->
      forall k, (2 <= k)%nat -> (k < 2 * n)%nat -> (k < 2 * N - 2)%nat -> nth k g 0 = 0).
  assert (Hall : forall n, (n <= N)%nat ->
            P n (fold_left (loop_body th f parameters) (seq 0 n) (initial_state junk gradient))).
  { induction n as [|n IH]; intros Hn.
    - simpl; repeat split; intros; lia.
    - rewrite seq_S, fold_left_app; simpl fold_left.
      destruct (IH ltac:(lia)) as (Hc & Hx & Hy & Hk & Hg).
      set (s := fold_left (loop_body th f parameters) (seq 0 n) (initial_state junk gradient)) in *.
      destruct (Nat.lt_ge_cases n 1) as [Hn1|Hn1].
      { rewrite loop_body_skip by lia; repeat split; auto; intros; lia. }
      destruct (Nat.lt_ge_cases n (N - 1)) as [Hn2|Hn2].
      2: { rewrite loop_body_skip by (unfold N in Hn2; lia); repeat split; auto.
           intros g Hg' k Hk1 Hk2 Hk3; apply (Hg g Hg' k); lia. }
      (* an interior point *)
      assert (Ep : point parameters n = mkVector2d (v0 a + INR n * v0 d) (v1 a + INR n * v1 d))
        by (apply Hline; lia).
      assert (Epp : point parameters (n + 1) =
                    mkVector2d (v0 a + (INR n + 1) * v0 d) (v1 a + (INR n + 1) * v1 d))
        by (rewrite Hline by lia; rewrite plus_INR; reflexivity).
      assert (Epm : point parameters (n - 1) =
                    mkVector2d (v0 a + (INR n - 1) * v0 d) (v1 a + (INR n - 1) * v1 d))
        by (rewrite Hline by lia; rewrite minus_INR by lia; reflexivity).
      assert (Hv1 : vsub (point parameters n) (point parameters (n - 1)) = d).
      { rewrite Ep, Epm; destruct d; unfold vsub; simpl; f_equal; ring. }
      assert (Hv2 : vsub (point parameters (n + 1)) (point parameters n) = d).
      { rewrite Ep, Epp; destruct d; unfold vsub; simpl; f_equal; ring. }
      assert (Hsm : forall w r, addSmoothingResidual w (point parameters n) (point parameters (n + 1))
                                  (point parameters (n - 1)) r = r).
      { intros w r; rewrite Ep, Epp, Epm; unfold addSmoothingResidual, dot; simpl; ring. }
      destruct (straight_curvature f (Wcurve f) _ _ _ d (curvature_params s) 0 Hv1 Hv2 Hd Hmax)
        as (Hval & Htr & _).
      pose proof (loop_body_interior th f parameters s n Hn1 Hn2) as HI; cbv zeta in HI.
      destruct HI as (_ & Hk' & HI).
      rewrite (proj2 (proj2 (straight_curvature f (Wcurve f) _ _ _ d (curvature_params s) _
                                Hv1 Hv2 Hd Hmax))), Hsm in HI.
      assert (Hr3 : addTurningRateChangeResidual (Wchange f)
                      (turning_rad (fst (addMaxCurvatureResidual f (Wcurve f) (point parameters n)
                         (point parameters (n + 1)) (point parameters (n - 1)) (curvature_params s) 0)))
                      (ki_m1 s) (cost_raw s) = 0)
        by (rewrite Htr, Hk, Hc; unfold addTurningRateChangeResidual; ring).
      rewrite Hr3 in HI.
      pose proof (Hfree n Hn1 ltac:(unfold N in Hn2; lia)) as Hcell.
      assert (Hki : ki_m1 (loop_body th f parameters s n) = 0) by (rewrite Hk'; exact Htr).
      split.
      + destruct (worldToMap _ _ _) as [[mx my]|]; [|exact (proj1 HI)].
        rewrite Hcell in HI; unfold addCollisionResidual in HI.
        rewrite (Rltb_true _ _ Hth) in HI; destruct HI as [-> _].
        unfold addCostResidual; rewrite (Reqb_true (FREE th) (FREE th) eq_refl); reflexivity.
      + destruct (st_gradient s) as [g|] eqn:Hgs.
        * assert (Hj : addTurningRateChangeJacobian (Wchange f)
            (turning_rad (fst (addMaxCurvatureResidual f (Wcurve f) (point parameters n)
               (point parameters (n + 1)) (point parameters (n - 1)) (curvature_params s) 0))) (ki_m1 s)
            (addMaxCurvatureJacobian (Wcurve f) (point parameters n) (point parameters (n + 1))
               (point parameters (n - 1))
               (fst (addMaxCurvatureResidual f (Wcurve f) (point parameters n) (point parameters (n + 1))
                  (point parameters (n - 1)) (curvature_params s) 0))
               (addSmoothingJacobian (Wsmooth f) (point parameters n) (point parameters (n + 1))
                  (point parameters (n - 1)) (grad_x_raw s, grad_y_raw s))) = (0, 0)).
          { rewrite (addMaxCurvatureJacobian_invalid _ _ _ _ _ _ Hval), Htr, Hk, Hx, Hy, Ep, Epp, Epm.
            unfold addTurningRateChangeJacobian, addSmoothingJacobian; simpl; f_equal; ring. }
          destruct (loop_body_interior_grad th f parameters s n g Hn1 Hn2 Hgs Hcell Hth 0 0 Hj)
            as (Hx' & Hy' & Hg').
          split; [exact Hx'|]; split; [exact Hy'|]; split; [exact Hki|].
          intros g' Hg'' k Hk1 Hk2 Hk3.
          rewrite Hg' in Hg''; injection Hg'' as <-.
          destruct (Nat.eq_dec k (2 * n + 1)) as [->|Hk4];
            [apply nth_list_set_same_zero|rewrite nth_list_set_other by lia].
          destruct (Nat.eq_dec k (2 * n)) as [->|Hk5];
            [apply nth_list_set_same_zero|rewrite nth_list_set_other by lia].
          rewrite !nth_list_set_other by lia.
          apply (Hg g eq_refl k); lia.
        * destruct (loop_body_nograd th f parameters s n Hgs) as (Hx' & Hy' & Hg').
          rewrite Hx', Hy', Hg'; split; [exact Hx|]; split; [exact Hy|]; split; [exact Hki|]; discriminate. }
  destruct (Hall N (le_n N)) as (Hc & _ & _ & _ & Hg).
  unfold Evaluate; fold N; simpl; split; [exact Hc|].
  intros g' Hg' k Hk; apply (Hg g' Hg' k); lia.
Qed.

(** The path (0,0), (1,0), (2,0) outside the empty map. *)
Lemma Evaluate_straight_path_stationary_witness :
  let f := make_UnconstrainedSmootherCostFunction 3 empty_map in
  let ps := [0; 0; 1; 0; 2; 0] in
  (forall k, (k < NumParameters f / 2)%nat ->
     point ps k = mkVector2d (v0 (mkVector2d 0 0) + INR k * v0 (mkVector2d 1 0))
                             (v1 (mkVector2d 0 0) + INR k * v1 (mkVector2d 1 0))) /\
  EPSILON <= norm (mkVector2d 1 0) /\ 0 <= max_turning_radius f /\
  (forall i, (1 <= i)%nat -> (i + 1 < NumParameters f / 2)%nat ->
     match worldToMap (costmap f) (v0 (point ps i)) (v1 (point ps i)) with
     | None => True
     | Some (mx, my) => getCost (costmap f) mx my = FREE nav2_thresholds
     end) /\
  FREE nav2_thresholds < INSCRIBED nav2_thresholds /\
  snd (fst (Evaluate nav2_thresholds f (junk_of 0) ps None)) = 0.
Proof.
  intros f ps.
  assert (Hl : forall k, (k < NumParameters f / 2)%nat ->
     point ps k = mkVector2d (v0 (mkVector2d 0 0) + INR k * v0 (mkVector2d 1 0))
                             (v1 (mkVector2d 0 0) + INR k * v1 (mkVector2d 1 0))).
  { intros k Hk; cbn in Hk.
    destruct k as [|[|[|k]]]; [| | |lia]; unfold point; simpl; f_equal; ring. }
  assert (Hd : EPSILON <= norm (mkVector2d 1 0))
    by (rewrite (norm_eq _ 1) by (simpl; lra); unfold EPSILON; lra).
  assert (Hm : 0 <= max_turning_radius f) by (cbn; lra).
  assert (Hf : forall i, (1 <= i)%nat -> (i + 1 < NumParameters f / 2)%nat ->
     match worldToMap (costmap f) (v0 (point ps i)) (v1 (point ps i)) with
     | None => True
     | Some (mx, my) => getCost (costmap f) mx my = FREE nav2_thresholds
     end) by (intros; exact I).
  assert (Ht : FREE nav2_thresholds < INSCRIBED nav2_thresholds) by (cbn; lra).
  split; [exact Hl|]; split; [exact Hd|]; split; [exact Hm|]; split; [exact Hf|];
    split; [exact Ht|].
  exact (proj1 (Evaluate_straight_path_stationary nav2_thresholds f (junk_of 0) ps
                  (mkVector2d 0 0) (mkVector2d 1 0) None Hl Hd Hm Hf Ht)).
Defined.

(** The cost-field cache lives across iterations.  At an interior point on
    a cell that is neither FREE nor UNKNOWN and below INSCRIBED, when the
    cache holds a non-zero value from an earlier point, the iteration adds
    that cached value, not the cell's own cost-avoidance term, and keeps
    it cached. *)
Theorem cost_cache_carried_to_later_points th f ps s i mx my
    (H1 : (1 <= i)%nat) (H2 : (i < NumParameters f / 2 - 1)%nat)
    (Hmap : worldToMap (costmap f) (v0 (point ps i)) (v1 (point ps i)) = Some (mx, my))
    (Hbelow : getCost (costmap f) mx my < INSCRIBED th)
    (Hfree : getCost (costmap f) mx my <> FREE th)
    (Hunknown : getCost (costmap f) mx my <> UNKNOWN th)
    (Hcache : cost (cost_params s) <> 0) :
  let xi := point ps i in
  let xi_p1 := point ps (i + 1) in
  let xi_m1 := point ps (i - 1) in
  let cp := fst (addMaxCurvatureResidual f (Wcurve f) xi xi_p1 xi_m1 (curvature_params s) 0) in
  let r2 := snd (addMaxCurvatureResidual f (Wcurve f) xi xi_p1 xi_m1 (curvature_params s)
                   (addSmoothingResidual (Wsmooth f) xi xi_p1 xi_m1 (cost_raw s))) in
  let r3 := addTurningRateChangeResidual (Wchange f) (turning_rad cp) (ki_m1 s) r2 in
  cost_raw (loop_body th f ps s i) = r3 + cost (cost_params s) /\
  cost (cost_params (loop_body th f ps s i)) = cost (cost_params s).
Proof.
  pose proof (loop_body_interior th f ps s i H1 H2) as HI; cbv zeta in HI |- *.
  destruct HI as (_ & _ & HI); rewrite Hmap in HI.
  unfold addCollisionResidual in HI; rewrite (Rltb_true _ _ Hbelow) in HI.
  destruct HI as [-> ->]; split; [|reflexivity].
  unfold addCostResidual.
  rewrite (Reqb_false _ _ Hfree), (Reqb_false _ _ Hunknown), (Reqb_false _ _ Hcache); reflexivity.
Qed.

(** A cell of value 100 after a cached value of -1. *)
Lemma cost_cache_carried_to_later_points_witness :
  let cm := mkMinimalCostmap 1 1 (fun _ _ => 100) (fun _ _ => Some (0%Z, 0%Z)) in
  let f := make_UnconstrainedSmootherCostFunction 3 cm in
  let s := mkEvalState 0 0 0 0 (junk_of 0) (mkCostComputations (-1) 0 0) None in
  let ps := [0; 0; 1; 0; 2; 0] in
  (1 <= 1)%nat /\ (1 < NumParameters f / 2 - 1)%nat /\
  worldToMap (costmap f) (v0 (point ps 1)) (v1 (point ps 1)) = Some (0%Z, 0%Z) /\
  getCost (costmap f) 0 0 < INSCRIBED nav2_thresholds /\
  getCost (costmap f) 0 0 <> FREE nav2_thresholds /\
  getCost (costmap f) 0 0 <> UNKNOWN nav2_thresholds /\
  cost (cost_params s) <> 0 /\
  cost (cost_params (loop_body nav2_thresholds f ps s 1)) = -1.
Proof.
  intros cm f s ps.
  assert (Ha : (1 <= 1)%nat) by lia.
  assert (Hb : (1 < NumParameters f / 2 - 1)%nat) by (cbn; lia).
  assert (Hc : worldToMap (costmap f) (v0 (point ps 1)) (v1 (point ps 1)) = Some (0%Z, 0%Z))
    by reflexivity.
  assert (Hd : getCost (costmap f) 0 0 < INSCRIBED nav2_thresholds) by (cbn; lra).
  assert (He : getCost (costmap f) 0 0 <> FREE nav2_thresholds) by (cbn; lra).
  assert (Hf : getCost (costmap f) 0 0 <> UNKNOWN nav2_thresholds) by (cbn; lra).
  assert (Hg : cost (cost_params s) <> 0) by (cbn; lra).
  do 7 (split; [assumption|]).
  exact (proj2 (cost_cache_carried_to_later_points nav2_thresholds f ps s 1 0 0
                  Ha Hb Hc Hd He Hf Hg)).
Defined.
